(** * es1d/pushers.py: right-hand sides of the 1D electrostatic fluid model

    A shallow embedding of [src/es1d/pushers.py].  Floating-point numbers
    are read as real numbers ([R]); a JAX/NumPy one-dimensional array is a
    list; complex numbers are pairs of reals.  The library transforms
    [fft], [ifft], [rfft], [irfft] and [interp] are written out from their
    documented definitions.  Elementwise operations follow NumPy
    broadcasting on one-dimensional shapes and fail ([None]) on shapes
    that do not broadcast. *)

From Stdlib Require Import Reals Lra Lia List Arith Bool.
Import ListNotations.

Local Open Scope R_scope.

(** ** Complex numbers *)

Definition C : Type := (R * R)%type.

Definition Cre (z : C) : R := fst z.
Definition Cim (z : C) : R := snd z.
Definition RtoC (x : R) : C := (x, 0).
Definition C0 : C := (0, 0).
Definition Ci : C := (0, 1).

Definition Cadd (z w : C) : C := (Cre z + Cre w, Cim z + Cim w).
Definition Cmul (z w : C) : C :=
  (Cre z * Cre w - Cim z * Cim w, Cre z * Cim w + Cim z * Cre w).
Definition Cscal (r : R) (z : C) : C := (r * Cre z, r * Cim z).

(** [cis t] is [exp (i t)]. *)
Definition cis (t : R) : C := (cos t, sin t).

(** ** Finite sums, indices [0 .. n-1] *)

Fixpoint Rsum (f : nat -> R) (n : nat) : R :=
  match n with
  | O => 0
  | S m => Rsum f m + f m
  end.

Fixpoint Csum (f : nat -> C) (n : nat) : C :=
  match n with
  | O => C0
  | S m => Cadd (Csum f m) (f m)
  end.

(** ** Arrays and broadcasting *)

Definition zeros (n : nat) : list R := repeat 0 n.
Definition ones (n : nat) : list R := repeat 1 n.

Fixpoint map2 {A B D : Type} (f : A -> B -> D) (a : list A) (b : list B) : list D :=
  match a, b with
  | x :: a', y :: b' => f x y :: map2 f a' b'
  | _, _ => []
  end.

(** NumPy broadcasting of a binary elementwise operation on two
    one-dimensional arrays: equal shapes combine pointwise, a shape-(1,)
    operand is stretched, anything else raises. *)
Definition broadcast {A B D : Type} (f : A -> B -> D) (a : list A) (b : list B)
  : option (list D) :=
  if Nat.eqb (length a) (length b) then Some (map2 f a b)
  else match a, b with
       | [x], _ => Some (map (f x) b)
       | _, [y] => Some (map (fun x => f x y) a)
       | _, _ => None
       end.

Definition bind {A B : Type} (m : option A) (k : A -> option B) : option B :=
  match m with
  | Some x => k x
  | None => None
  end.

Notation "x <- m ;; k" := (bind m (fun x => k))
  (at level 61, m at next level, right associativity).

(** ** Library transforms (numpy.fft conventions) *)

(** [fft a] at [k] is the sum over [m] of [a_m exp(-2 pi i m k / n)]. *)
Definition fft (a : list C) : list C :=
  let n := length a in
  map (fun k =>
         Csum (fun m => Cmul (nth m a C0)
                             (cis (- (2 * PI * INR m * INR k / INR n)))) n)
      (seq 0 n).

(** [ifft a] at [m] is [1/n] times the sum over [k] of
    [a_k exp(+2 pi i m k / n)]. *)
Definition ifft (a : list C) : list C :=
  let n := length a in
  map (fun m =>
         Cscal (/ INR n)
               (Csum (fun k => Cmul (nth k a C0)
                                    (cis (2 * PI * INR m * INR k / INR n))) n))
      (seq 0 n).

(** [rfft a]: the first [n/2 + 1] entries of the transform of a real array. *)
Definition rfft (a : list R) : list C :=
  firstn (length a / 2 + 1) (fft (map RtoC a)).

(** [irfft a] with the default output length [n = 2 (m - 1)] for a
    half-spectrum of [m] entries: the inverse transform of the Hermitian
    extension of [a]; the imaginary parts of the first and last entries
    do not enter. *)
Definition irfft (a : list C) : list R :=
  let m := length a in
  let n := (2 * (m - 1))%nat in
  map (fun j =>
         / INR n *
         (Cre (nth 0 a C0)
          + Rsum (fun k =>
                    2 * Cre (Cmul (nth (S k) a C0)
                                  (cis (2 * PI * INR j * INR (S k) / INR n))))
                 (m - 2)
          + Cre (nth (m - 1) a C0) * cos (PI * INR j)))
      (seq 0 n).

(** Comparison of reals as booleans. *)
Definition Rltb (x y : R) : bool := if Rlt_dec x y then true else false.
Definition Rleb (x y : R) : bool := if Rle_dec x y then true else false.

(** [searchsorted xp x side='right'] on an increasing [xp]: the number of
    entries that are at most [x]. *)
Definition searchsorted_right (xp : list R) (x : R) : nat :=
  length (filter (fun v => Rleb v x) xp).

Definition clip (i lo hi : nat) : nat := Nat.min (Nat.max i lo) hi.

(** One sample of [interp]: [left] below the table, [right] above it, and
    on the table the chord through the two neighbouring entries. *)
Definition interp1 (xp fp : list R) (left right : R) (x : R) : R :=
  if Rltb x (nth 0 xp 0) then left
  else if Rltb (last xp 0) x then right
  else
    let i := clip (searchsorted_right xp x) 1 (length xp - 1) in
    let df := nth i fp 0 - nth (i - 1) fp 0 in
    let dx := nth i xp 0 - nth (i - 1) xp 0 in
    nth (i - 1) fp 0 + (x - nth (i - 1) xp 0) / dx * df.

(** [interp x xp fp left right]; [xp] and [fp] must have equal sizes. *)
Definition interp (x xp fp : list R) (left right : R) : option (list R) :=
  if Nat.eqb (length xp) (length fp)
  then Some (map (interp1 xp fp left right) x)
  else None.

(** [numpy.linspace start stop num], end point included. *)
Definition linspace (start stop : R) (num : nat) : list R :=
  map (fun i => start + INR i * ((stop - start) / INR (num - 1))) (seq 0 num).

(** Item assignment [l[i] = v]; an index out of range raises. *)
Definition assign (l : list R) (i : nat) (v : R) : option (list R) :=
  if Nat.ltb i (length l)
  then Some (firstn i l ++ v :: skipn (S i) l)
  else None.

(** ** The source file *)

Section Pushers.

(** [theory.electrostatic.get_roots_to_electrostatic_dispersion], the
    external root finder of the dispersion relation. *)
Variable get_roots_to_electrostatic_dispersion : R -> R -> R -> C.

(** The body of the [for i, kld in enumerate(klds)] loop, on the state
    [(wrs, wis)]. *)
Definition table_step (st : option (list R * list R)) (ik : nat * R)
  : option (list R * list R) :=
  s <- st ;;
  let ww := get_roots_to_electrostatic_dispersion 1 1 (snd ik) in
  wrs <- assign (fst s) (fst ik) (Cre ww) ;;
  wis <- assign (snd s) (fst ik) (Cim ww) ;;
  Some (wrs, wis).

Definition get_complex_frequency_table (num : nat)
  : option (list R * list R * list R) :=
  let klds := linspace 0.2 0.4 128 in
  s <- fold_left table_step (combine (seq 0 (length klds)) klds)
                 (Some (zeros num, zeros num)) ;;
  Some (fst s, snd s, klds).

(** The division is the one of [R]: it stands for the floating-point
    division of the source only where the rise scales [p_wL] and [p_wR]
    are not zero, which the theorems on the window assume. *)
Definition get_envelope (p_wL p_wR p_L p_R ax : R) : R :=
  0.5 * (tanh ((ax - p_L) / p_wL) - tanh ((ax - p_R) / p_wR)).

(** The pulse dictionary, with the ten keys [Driver.__call__] reads. *)
Record Pulse : Type := mkPulse {
  k0 : R; w0 : R; dw0 : R; a0 : R;
  t_c : R; t_w : R; t_r : R;
  x_c : R; x_w : R; x_r : R
}.

Record Driver : Type := mkDriver { xax : list R }.

Definition Driver_init (xax : list R) : Driver := mkDriver xax.

Definition Driver_call (self : Driver) (this_pulse : Pulse) (current_time : R)
  : option (list R) :=
  let kk := k0 this_pulse in
  let ww := w0 this_pulse in
  let dw := dw0 this_pulse in
  let t_L := t_c this_pulse - t_w this_pulse * 0.5 in
  let t_R := t_c this_pulse + t_w this_pulse * 0.5 in
  let t_wL := t_r this_pulse in
  let t_wR := t_r this_pulse in
  let x_L := x_c this_pulse - x_w this_pulse * 0.5 in
  let x_R := x_c this_pulse + x_w this_pulse * 0.5 in
  let x_wL := x_r this_pulse in
  let x_wR := x_r this_pulse in
  let envelope_t := get_envelope t_wL t_wR t_L t_R current_time in
  let envelope_x := map (get_envelope x_wL x_wR x_L x_R) (xax self) in
  broadcast Rmult
    (map (fun e => envelope_t * e * Rabs kk * a0 this_pulse) envelope_x)
    (map (fun x => sin (kk * x - (ww + dw) * current_time)) (xax self)).

(** [one_over_kx] is taken complex (the specification calls it a
    [1/(i k)]-style array); a real array has zero imaginary parts. *)
Record PoissonSolver : Type := mkPoissonSolver { one_over_kx : list C }.

Definition PoissonSolver_init (one_over_kx : list C) : PoissonSolver :=
  mkPoissonSolver one_over_kx.

Definition PoissonSolver_call (self : PoissonSolver) (dn : list R)
  : option (list R) :=
  z <- broadcast Cmul (map (Cmul Ci) (one_over_kx self)) (fft (map RtoC dn)) ;;
  Some (map Cre (ifft z)).

Definition StepAmpere_call (n u : list R) : option (list R) :=
  broadcast Rmult n u.

Definition gradient (arr kx : list R) : option (list R) :=
  z <- broadcast Cmul (map (fun k => Cmul Ci (RtoC k)) kx) (fft (map RtoC arr)) ;;
  Some (map Cre (ifft z)).

Record DensityStepper : Type := mkDensityStepper { ds_kx : list R }.

Definition DensityStepper_init (kx : list R) : DensityStepper :=
  mkDensityStepper kx.

Definition DensityStepper_call (self : DensityStepper) (n u : list R)
  : option (list R) :=
  gn <- gradient n (ds_kx self) ;;
  a <- broadcast Rmult (map Ropp u) gn ;;
  gu <- gradient u (ds_kx self) ;;
  b <- broadcast Rmult n gu ;;
  broadcast Rminus a b.

(** The [physics] dictionary, with the two keys the constructor reads. *)
Record Physics : Type := mkPhysics {
  kinetic_real_wepw : bool;
  landau_damping : bool
}.

(** The attributes [kx], [wis] and [wr_corr]. *)
Record VelocityStepper : Type := mkVelocityStepper {
  vs_kx : list R;
  vs_wis : list R;
  vs_wr_corr : list R
}.

(** [wrs[-1]] is [last wrs 0]; [kxr**2.0] is the square [k ^ 2]. *)
Definition VelocityStepper_init (kx kxr : list R) (physics : Physics)
  : option VelocityStepper :=
  t <- get_complex_frequency_table 128 ;;
  let wrs := fst (fst t) in
  let wis := snd (fst t) in
  let klds := snd t in
  wrs' <- interp kxr klds wrs 0 (last wrs 0) ;;
  wr_corr <- (if kinetic_real_wepw physics
              then broadcast Rdiv wrs' (map (fun k => sqrt (1 + 3 * k ^ 2)) kxr)
              else Some (ones (length kxr))) ;;
  wis' <- (if landau_damping physics
           then interp kxr klds wis 0 (last wis 0)
           else Some (zeros (length kxr))) ;;
  Some (mkVelocityStepper kx wis' wr_corr).

(** [irfft] returns a real array, on which [jnp.real] is the identity. *)
Definition landau_damping_term (self : VelocityStepper) (u : list R)
  : option (list R) :=
  z <- broadcast Cscal (vs_wis self) (rfft u) ;;
  Some (irfft z).

Definition restoring_force_term (self : VelocityStepper) (gradp_over_nm : list R)
  : option (list R) :=
  z <- broadcast Cscal (vs_wr_corr self) (rfft gradp_over_nm) ;;
  Some (irfft z).

(** The terms are combined left to right, as Python evaluates the sum. *)
Definition VelocityStepper_call (self : VelocityStepper)
  (n u p_over_m q_over_m_times_e delta : list R) : option (list R) :=
  gu <- gradient u (vs_kx self) ;;
  t1 <- broadcast Rmult (map Ropp u) gu ;;
  gp <- gradient p_over_m (vs_kx self) ;;
  g <- broadcast Rdiv gp n ;;
  rf <- restoring_force_term self g ;;
  t2 <- broadcast Rminus t1 rf ;;
  t3 <- broadcast Rminus t2 q_over_m_times_e ;;
  ld <- landau_damping_term self u ;;
  t4 <- broadcast Rdiv ld (map (fun d => 1 + d ^ 2) delta) ;;
  broadcast Rplus t3 t4.

Record EnergyStepper : Type := mkEnergyStepper { es_kx : list R; es_gamma : R }.

Definition EnergyStepper_init (kx : list R) (gamma : R) : EnergyStepper :=
  mkEnergyStepper kx gamma.

(** The arguments [n] and [q_over_m_times_e] are not read: the terms that
    used them are commented out in the source. *)
Definition EnergyStepper_call (self : EnergyStepper)
  (n u p_over_m q_over_m_times_e : list R) : option (list R) :=
  gp <- gradient p_over_m (es_kx self) ;;
  a <- broadcast Rmult (map Ropp u) gp ;;
  gu <- gradient u (es_kx self) ;;
  b <- broadcast Rmult (map (Rmult (es_gamma self)) p_over_m) gu ;;
  broadcast Rminus a b.

Record ParticleTrapper : Type := mkParticleTrapper {
  pt_kxr : list R;
  pt_wis : list R;
  pt_kx : list R
}.

Definition ParticleTrapper_init (kxr kx : list R) : option ParticleTrapper :=
  t <- get_complex_frequency_table 128 ;;
  let wis := snd (fst t) in
  let klds := snd t in
  wis' <- interp kxr klds wis 0 0 ;;
  Some (mkParticleTrapper kxr wis' kx).

Definition ParticleTrapper_call (self : ParticleTrapper) (e delta : list R)
  : option (list R) :=
  gd <- gradient delta (pt_kx self) ;;
  z <- broadcast (fun c w => Cscal w c) (rfft e) (pt_wis self) ;;
  t1 <- broadcast Rplus (map (Rmult (-3.757)) gd)
                        (map (fun x => 100 * Rabs x) (irfft z)) ;;
  broadcast Rminus t1 (map (Rmult 0.001) delta).

End Pushers.

(** ** The formulas of the specification

    These follow the wording of the specification; the theorems below
    compare them with the functions of the source. *)

(** The smooth double-tanh window with centre [center], half-width
    [width / 2] and rise scale [rise] on both edges. *)
Definition double_tanh_window (center width rise x : R) : R :=
  0.5 * (tanh ((x - (center - width / 2)) / rise)
         - tanh ((x - (center + width / 2)) / rise)).

(** An elementwise operation on two results; it fails when either
    operand failed or the shapes do not broadcast. *)
Definition lift2 (f : R -> R -> R) (a b : option (list R)) : option (list R) :=
  x <- a ;; y <- b ;; broadcast f x y.

(** Application of a spectral filter: real-to-half-spectrum transform of
    the target array, elementwise product with the filter, inverse
    half-spectrum transform. *)
Definition half_spectrum_filter (w f : list R) : option (list R) :=
  z <- broadcast Cscal w (rfft f) ;; Some (irfft z).

(** [-u (du/dx) - restoring_force ((d(p/m)/dx) / n) - q_over_m_times_e
     + landau_damping u / (1 + delta^2)]. *)
Definition velocity_rhs (kx wr_corr wis n u p q delta : list R)
  : option (list R) :=
  lift2 Rplus
    (lift2 Rminus
       (lift2 Rminus
          (lift2 Rmult (Some (map Ropp u)) (gradient u kx))
          (g <- lift2 Rdiv (gradient p kx) (Some n) ;;
           half_spectrum_filter wr_corr g))
       (Some q))
    (lift2 Rdiv (half_spectrum_filter wis u)
                (Some (map (fun d => 1 + d ^ 2) delta))).

(** [-3.757 (d(delta)/dx) + 100 |irfft (rfft e * wis_trap)| - 0.001 delta]. *)
Definition trapping_forcing (wis_trap e : list R) : option (list R) :=
  option_map (map (fun x => 100 * Rabs x)) (half_spectrum_filter wis_trap e).

Definition trapping_rhs (kx wis_trap e delta : list R) : option (list R) :=
  lift2 Rminus
    (lift2 Rplus
       (option_map (map (Rmult (-3.757))) (gradient delta kx))
       (trapping_forcing wis_trap e))
    (Some (map (Rmult 0.001) delta)).

(** The undamped, non-dispersive Euler right-hand side at grid point [i],
    from the arrays [u], [du/dx], [d(p/m)/dx], [n] and [q_over_m_times_e]. *)
Definition euler_rhs_at (u du dp n q : list R) (i : nat) : R :=
  - nth i u 0 * nth i du 0 - nth i dp 0 / nth i n 0 - nth i q 0.

(** * Arrays, sums and transforms *)

(** ** Lists, broadcasting *)

Lemma length_map2 {A B D : Type} (f : A -> B -> D) (a : list A) (b : list B) :
  length (map2 f a b) = Nat.min (length a) (length b).
Proof.
  revert b; induction a as [|x a IH]; intros [|y b]; simpl; auto.
Qed.

Lemma nth_map2 {A B D : Type} (f : A -> B -> D) (a : list A) (b : list B)
  (da : A) (db : B) (dd : D) (i : nat) :
  (i < length a)%nat -> (i < length b)%nat ->
  nth i (map2 f a b) dd = f (nth i a da) (nth i b db).
Proof.
  revert b i; induction a as [|x a IH]; intros [|y b] [|i]; simpl; intros Ha Hb;
    try lia; auto.
  apply IH; lia.
Qed.

Lemma broadcast_same {A B D : Type} (f : A -> B -> D) (a : list A) (b : list B) :
  length a = length b -> broadcast f a b = Some (map2 f a b).
Proof.
  intros H; unfold broadcast; rewrite H, Nat.eqb_refl; reflexivity.
Qed.

Lemma broadcast_clash {A B D : Type} (f : A -> B -> D) (a : list A) (b : list B) :
  length a <> length b -> length a <> 1%nat -> length b <> 1%nat ->
  broadcast f a b = None.
Proof.
  intros Hab Ha Hb; unfold broadcast.
  destruct (Nat.eqb_spec (length a) (length b)) as [E|_]; [contradiction|].
  destruct a as [|x [|x' a]]; simpl in *; try congruence;
    destruct b as [|y [|y' b]]; simpl in *; congruence.
Qed.

Lemma combine_app {A B : Type} (a a' : list A) (b b' : list B) :
  length a = length b ->
  combine (a ++ a') (b ++ b') = combine a b ++ combine a' b'.
Proof.
  revert b; induction a as [|x a IH]; intros [|y b] H; simpl in *; try discriminate; auto.
  f_equal. apply IH. congruence.
Qed.

Lemma map_seq_nth {A : Type} (l : list A) (d : A) :
  map (fun i => nth i l d) (seq 0 (length l)) = l.
Proof.
  induction l as [|x l IH]; simpl; auto.
  f_equal. rewrite <- seq_shift, map_map. exact IH.
Qed.

Lemma map_seq_ext {A : Type} (f g : nat -> A) (n : nat) :
  (forall i, (i < n)%nat -> f i = g i) ->
  map f (seq 0 n) = map g (seq 0 n).
Proof.
  intros H; apply map_ext_in; intros i Hi; apply in_seq in Hi; apply H; lia.
Qed.

Lemma map2_seq {A B D : Type} (h : A -> B -> D) (f : nat -> A) (g : nat -> B)
  (s n : nat) :
  map2 h (map f (seq s n)) (map g (seq s n)) = map (fun i => h (f i) (g i)) (seq s n).
Proof.
  revert s; induction n as [|n IH]; intros s; simpl; auto.
  f_equal; apply IH.
Qed.

Lemma map2_as_seq {A B D : Type} (h : A -> B -> D) (a : list A) (b : list B)
  (da : A) (db : B) :
  length a = length b ->
  map2 h a b = map (fun i => h (nth i a da) (nth i b db)) (seq 0 (length a)).
Proof.
  intros H.
  rewrite <- (map_seq_nth a da) at 1.
  rewrite <- (map_seq_nth b db) at 1.
  rewrite <- H. apply map2_seq.
Qed.

Lemma map_as_seq {A D : Type} (h : A -> D) (a : list A) (da : A) :
  map h a = map (fun i => h (nth i a da)) (seq 0 (length a)).
Proof.
  rewrite <- (map_seq_nth a da) at 1. now rewrite map_map.
Qed.

Lemma nth_map_seq {A : Type} (f : nat -> A) (n i : nat) (d : A) :
  (i < n)%nat -> nth i (map f (seq 0 n)) d = f i.
Proof.
  intros H.
  rewrite (nth_indep _ d (f 0%nat)) by now rewrite length_map, length_seq.
  rewrite (map_nth f), seq_nth; auto.
Qed.

Lemma nth_repeat_lt {A : Type} (x d : A) (n i : nat) :
  (i < n)%nat -> nth i (repeat x n) d = x.
Proof.
  revert i; induction n as [|n IH]; intros [|i] H; simpl; try lia; auto.
  apply IH; lia.
Qed.

Lemma repeat_as_seq {A : Type} (x : A) (n : nat) :
  repeat x n = map (fun _ => x) (seq 0 n).
Proof.
  generalize 0%nat; induction n as [|n IH]; intros s; simpl; auto.
  f_equal; apply IH.
Qed.

Lemma length_fft (a : list C) : length (fft a) = length a.
Proof. unfold fft; now rewrite length_map, length_seq. Qed.

Lemma length_ifft (a : list C) : length (ifft a) = length a.
Proof. unfold ifft; now rewrite length_map, length_seq. Qed.

Lemma length_rfft (a : list R) :
  (0 < length a)%nat -> length (rfft a) = (length a / 2 + 1)%nat.
Proof.
  intros H. unfold rfft. rewrite length_firstn, length_fft, length_map.
  apply Nat.min_l.
  assert (length a / 2 < length a)%nat by (apply Nat.div_lt; lia). lia.
Qed.

Lemma length_irfft (a : list C) : length (irfft a) = (2 * (length a - 1))%nat.
Proof. unfold irfft; now rewrite length_map, length_seq. Qed.

(** ** Pointwise reading of arrays *)

Lemma nth_map_lt {A B : Type} (f : A -> B) (l : list A) (d : A) (d' : B) (i : nat) :
  (i < length l)%nat -> nth i (map f l) d' = f (nth i l d).
Proof.
  intros H. rewrite (nth_indep _ d' (f d)) by now rewrite length_map.
  apply map_nth.
Qed.

Lemma list_as_map_seq {A : Type} (l : list A) (d : A) (N : nat) (F : nat -> A) :
  length l = N -> (forall i, (i < N)%nat -> nth i l d = F i) ->
  l = map F (seq 0 N).
Proof.
  intros HL H. rewrite <- (map_seq_nth l d), HL. now apply map_seq_ext.
Qed.

(** ** Constant arrays *)

Lemma nth_ones (N i : nat) : (i < N)%nat -> nth i (ones N) 0 = 1.
Proof. unfold ones. apply nth_repeat_lt. Qed.

Lemma all_zero_map (F : nat -> R) (N : nat) :
  (forall i, (i < N)%nat -> F i = 0) -> map F (seq 0 N) = zeros N.
Proof.
  intros H. unfold zeros. rewrite repeat_as_seq. now apply map_seq_ext.
Qed.

Lemma length_zeros (N : nat) : length (zeros N) = N.
Proof. apply repeat_length. Qed.

Lemma length_ones (N : nat) : length (ones N) = N.
Proof. apply repeat_length. Qed.

(** ** Sums *)

Lemma Rsum_ext (f g : nat -> R) (n : nat) :
  (forall i, (i < n)%nat -> f i = g i) -> Rsum f n = Rsum g n.
Proof.
  induction n as [|n IH]; intros H; simpl; auto.
  rewrite IH, H; auto.
Qed.

Lemma Rsum_zero (n : nat) : Rsum (fun _ => 0) n = 0.
Proof. induction n as [|n IH]; simpl; [|rewrite IH]; lra. Qed.

Lemma Rsum_plus (f g : nat -> R) (n : nat) :
  Rsum (fun i => f i + g i) n = Rsum f n + Rsum g n.
Proof. induction n as [|n IH]; simpl; [|rewrite IH]; lra. Qed.

Lemma Rsum_scal (c : R) (f : nat -> R) (n : nat) :
  Rsum (fun i => c * f i) n = c * Rsum f n.
Proof. induction n as [|n IH]; simpl; [|rewrite IH]; lra. Qed.

Lemma Rsum_scal_r (c : R) (f : nat -> R) (n : nat) :
  Rsum (fun i => f i * c) n = Rsum f n * c.
Proof. induction n as [|n IH]; simpl; [|rewrite IH]; lra. Qed.

Lemma Rsum_minus (f g : nat -> R) (n : nat) :
  Rsum (fun i => f i - g i) n = Rsum f n - Rsum g n.
Proof. induction n as [|n IH]; simpl; [|rewrite IH]; lra. Qed.

Lemma Rsum_const (c : R) (n : nat) : Rsum (fun _ => c) n = INR n * c.
Proof.
  induction n as [|n IH]; [simpl; lra|].
  rewrite S_INR; simpl; rewrite IH; lra.
Qed.

(** Exchange of two finite sums. *)
Lemma Rsum_swap (f : nat -> nat -> R) (n m : nat) :
  Rsum (fun i => Rsum (fun j => f i j) m) n =
  Rsum (fun j => Rsum (fun i => f i j) n) m.
Proof.
  induction n as [|n IH]; simpl.
  - now rewrite Rsum_zero.
  - now rewrite IH, <- Rsum_plus.
Qed.

(** A sum with one possibly nonzero term. *)
Lemma Rsum_single (f : nat -> R) (n j : nat) :
  (j < n)%nat -> (forall i, (i < n)%nat -> i <> j -> f i = 0) ->
  Rsum f n = f j.
Proof.
  induction n as [|n IH]; intros Hj H; [lia|]. simpl.
  destruct (Nat.eq_dec j n) as [->|Hne].
  - rewrite (Rsum_ext f (fun _ => 0)), Rsum_zero by (intros; apply H; lia). lra.
  - rewrite IH, (H n) by (auto; intros; try apply H; lia). lra.
Qed.

Lemma Rsum_split (f : nat -> R) (n m : nat) :
  Rsum f (n + m) = Rsum f n + Rsum (fun i => f (n + i)%nat) m.
Proof.
  induction m as [|m IH].
  - rewrite Nat.add_0_r; simpl; lra.
  - rewrite Nat.add_succ_r; simpl; rewrite IH; lra.
Qed.

Lemma Rsum_front (f : nat -> R) (n : nat) :
  Rsum f (S n) = f 0%nat + Rsum (fun i => f (S i)) n.
Proof.
  induction n as [|n IH]; [simpl; lra|].
  change (Rsum f (S (S n))) with (Rsum f (S n) + f (S n)).
  rewrite IH; simpl; lra.
Qed.

(** Reversal of the order of summation. *)
Lemma Rsum_rev (f : nat -> R) (n : nat) :
  Rsum f n = Rsum (fun i => f (n - 1 - i)%nat) n.
Proof.
  induction n as [|n IH]; [reflexivity|].
  rewrite (Rsum_front (fun i => f (S n - 1 - i)%nat)).
  simpl Rsum at 1. rewrite IH.
  replace (S n - 1 - 0)%nat with n by lia.
  rewrite (Rsum_ext (fun i => f (S n - 1 - S i)%nat) (fun i => f (n - 1 - i)%nat))
    by (intros; f_equal; lia).
  lra.
Qed.

Lemma Cre_Csum (f : nat -> C) (n : nat) :
  Cre (Csum f n) = Rsum (fun i => Cre (f i)) n.
Proof. induction n as [|n IH]; simpl; [|rewrite IH]; reflexivity. Qed.

Lemma Cim_Csum (f : nat -> C) (n : nat) :
  Cim (Csum f n) = Rsum (fun i => Cim (f i)) n.
Proof. induction n as [|n IH]; simpl; [|rewrite IH]; reflexivity. Qed.

Lemma C_eq (z w : C) : Cre z = Cre w -> Cim z = Cim w -> z = w.
Proof. destruct z, w; simpl; intros -> ->; reflexivity. Qed.

(** ** Roots of unity *)

(** Telescoping identity behind the geometric sum of [cis (k t)]. *)
Lemma cis_telescope (t : R) (n : nat) :
  (cos t - 1) * Rsum (fun k => cos (INR k * t)) n
    - sin t * Rsum (fun k => sin (INR k * t)) n = cos (INR n * t) - 1
  /\ sin t * Rsum (fun k => cos (INR k * t)) n
    + (cos t - 1) * Rsum (fun k => sin (INR k * t)) n = sin (INR n * t).
Proof.
  induction n as [|n [IHc IHs]].
  - simpl. rewrite Rmult_0_l, cos_0, sin_0. lra.
  - rewrite S_INR. simpl Rsum.
    replace ((INR n + 1) * t) with (INR n * t + t) by ring.
    rewrite cos_plus, sin_plus. split; nra.
Qed.

Lemma cis_geometric (t : R) (n : nat) :
  cos t <> 1 -> cos (INR n * t) = 1 -> sin (INR n * t) = 0 ->
  Rsum (fun k => cos (INR k * t)) n = 0 /\
  Rsum (fun k => sin (INR k * t)) n = 0.
Proof.
  intros Hne Hc Hs.
  destruct (cis_telescope t n) as [H1 H2].
  rewrite Hc in H1. rewrite Hs in H2.
  set (Sc := Rsum (fun k => cos (INR k * t)) n) in *.
  set (Ss := Rsum (fun k => sin (INR k * t)) n) in *.
  pose proof (sin2_cos2 t) as Hu. unfold Rsqr in Hu.
  assert (Hd : (cos t - 1) * (cos t - 1) + sin t * sin t <> 0)
    by (intros H; apply Hne; nra).
  assert (E1 : ((cos t - 1) * (cos t - 1) + sin t * sin t) * Sc = 0).
  { replace (((cos t - 1) * (cos t - 1) + sin t * sin t) * Sc)
      with ((cos t - 1) * ((cos t - 1) * Sc - sin t * Ss)
            + sin t * (sin t * Sc + (cos t - 1) * Ss)) by ring.
    rewrite H1, H2. ring. }
  assert (E2 : ((cos t - 1) * (cos t - 1) + sin t * sin t) * Ss = 0).
  { replace (((cos t - 1) * (cos t - 1) + sin t * sin t) * Ss)
      with ((cos t - 1) * (sin t * Sc + (cos t - 1) * Ss)
            - sin t * ((cos t - 1) * Sc - sin t * Ss)) by ring.
    rewrite H1, H2. ring. }
  split.
  - apply Rmult_integral in E1; tauto.
  - apply Rmult_integral in E2; tauto.
Qed.

Lemma cos_full_turns (d : nat) : cos (2 * PI * INR d) = 1.
Proof.
  replace (2 * PI * INR d) with (0 + 2 * INR d * PI) by ring.
  rewrite cos_period. apply cos_0.
Qed.

Lemma sin_full_turns (d : nat) : sin (2 * PI * INR d) = 0.
Proof.
  replace (2 * PI * INR d) with (0 + 2 * INR d * PI) by ring.
  rewrite sin_period. apply sin_0.
Qed.

Lemma cos_ne_1 (t : R) : 0 < t -> t < 2 * PI -> cos t <> 1.
Proof.
  intros H0 H1 Hc.
  pose proof (sin2_cos2 t) as Hu. unfold Rsqr in Hu. rewrite Hc in Hu.
  assert (Hs : sin t = 0) by nra.
  destruct (sin_eq_O_2PI_0 t) as [E|[E|E]]; try lra.
  rewrite E, cos_PI in Hc. lra.
Qed.

(** The [n]-th roots of unity, with a step [d] that [n] does not divide,
    add up to zero. *)
Lemma roots_of_unity_sum (n d : nat) :
  (0 < d < n)%nat ->
  Rsum (fun k => cos (2 * PI * INR k * INR d / INR n)) n = 0 /\
  Rsum (fun k => sin (2 * PI * INR k * INR d / INR n)) n = 0.
Proof.
  intros [Hd Hn].
  assert (Hn0 : 0 < INR n) by (apply lt_0_INR; lia).
  assert (Hd0 : 0 < INR d) by (apply lt_0_INR; lia).
  assert (Hdn : INR d < INR n) by (apply lt_INR; lia).
  pose proof PI_RGT_0 as Hpi.
  set (t := 2 * PI * INR d / INR n).
  assert (Ht0 : 0 < t).
  { unfold t. apply Rdiv_lt_0_compat; nra. }
  assert (Ht1 : t < 2 * PI).
  { unfold t. apply Rmult_lt_reg_r with (INR n); auto.
    unfold Rdiv. rewrite Rmult_assoc, Rinv_l by lra. nra. }
  assert (Hnt : INR n * t = 2 * PI * INR d) by (unfold t; field; lra).
  destruct (cis_geometric t n) as [Hc Hs].
  - now apply cos_ne_1.
  - rewrite Hnt; apply cos_full_turns.
  - rewrite Hnt; apply sin_full_turns.
  - split.
    + rewrite <- Hc. apply Rsum_ext. intros k _. f_equal. unfold t. field. lra.
    + rewrite <- Hs. apply Rsum_ext. intros k _. f_equal. unfold t. field. lra.
Qed.

(** ** Linearity of the transforms *)

Lemma Csum_ext (f g : nat -> C) (n : nat) :
  (forall i, (i < n)%nat -> f i = g i) -> Csum f n = Csum g n.
Proof.
  induction n as [|n IH]; intros H; simpl; auto.
  rewrite IH, H; auto.
Qed.

Lemma Csum_lin (a b : R) (f g : nat -> C) (n : nat) :
  Csum (fun i => Cadd (Cscal a (f i)) (Cscal b (g i))) n =
  Cadd (Cscal a (Csum f n)) (Cscal b (Csum g n)).
Proof.
  induction n as [|n IH]; simpl.
  - apply C_eq; simpl; ring.
  - rewrite IH. apply C_eq; simpl; ring.
Qed.

Lemma Cmul_lin_l (a b : R) (x y w : C) :
  Cmul (Cadd (Cscal a x) (Cscal b y)) w =
  Cadd (Cscal a (Cmul x w)) (Cscal b (Cmul y w)).
Proof. apply C_eq; simpl; ring. Qed.

Lemma Cmul_lin_r (a b : R) (x y w : C) :
  Cmul w (Cadd (Cscal a x) (Cscal b y)) =
  Cadd (Cscal a (Cmul w x)) (Cscal b (Cmul w y)).
Proof. apply C_eq; simpl; ring. Qed.

Lemma Cscal_lin (a b c : R) (x y : C) :
  Cscal c (Cadd (Cscal a x) (Cscal b y)) =
  Cadd (Cscal a (Cscal c x)) (Cscal b (Cscal c y)).
Proof. apply C_eq; simpl; ring. Qed.

Lemma nth_fft (a : list C) (k : nat) :
  (k < length a)%nat ->
  nth k (fft a) C0 =
  Csum (fun m => Cmul (nth m a C0)
                      (cis (- (2 * PI * INR m * INR k / INR (length a)))))
       (length a).
Proof.
  intros H. unfold fft.
  exact (nth_map_seq
           (fun k => Csum (fun m => Cmul (nth m a C0)
                        (cis (- (2 * PI * INR m * INR k / INR (length a)))))
                        (length a)) (length a) k C0 H).
Qed.

Lemma nth_ifft (a : list C) (m : nat) :
  (m < length a)%nat ->
  nth m (ifft a) C0 =
  Cscal (/ INR (length a))
        (Csum (fun k => Cmul (nth k a C0)
                             (cis (2 * PI * INR m * INR k / INR (length a))))
              (length a)).
Proof.
  intros H. unfold ifft.
  exact (nth_map_seq
           (fun m => Cscal (/ INR (length a))
              (Csum (fun k => Cmul (nth k a C0)
                        (cis (2 * PI * INR m * INR k / INR (length a))))
                    (length a))) (length a) m C0 H).
Qed.

Section Linearity.

Variables a b : R.

Let lin (x y : C) : C := Cadd (Cscal a x) (Cscal b y).

Lemma fft_lin (X Y : list C) :
  length X = length Y ->
  fft (map2 lin X Y) = map2 lin (fft X) (fft Y).
Proof.
  intros H.
  assert (HL : length (map2 lin X Y) = length X)
    by (rewrite length_map2, H; apply Nat.min_id).
  apply nth_ext with (d := C0) (d' := C0).
  - rewrite length_fft, !length_map2, !length_fft. lia.
  - rewrite length_fft, HL. intros k Hk.
    rewrite (nth_map2 lin _ _ C0 C0) by (rewrite length_fft; lia).
    rewrite !nth_fft by lia. rewrite HL, <- H.
    unfold lin. rewrite <- Csum_lin. apply Csum_ext. intros m Hm.
    rewrite (nth_map2 _ _ _ C0 C0) by lia.
    apply Cmul_lin_l.
Qed.

Lemma ifft_lin (X Y : list C) :
  length X = length Y ->
  ifft (map2 lin X Y) = map2 lin (ifft X) (ifft Y).
Proof.
  intros H.
  assert (HL : length (map2 lin X Y) = length X)
    by (rewrite length_map2, H; apply Nat.min_id).
  apply nth_ext with (d := C0) (d' := C0).
  - rewrite length_ifft, !length_map2, !length_ifft. lia.
  - rewrite length_ifft, HL. intros k Hk.
    rewrite (nth_map2 lin _ _ C0 C0) by (rewrite length_ifft; lia).
    rewrite !nth_ifft by lia. rewrite HL, <- H.
    unfold lin. rewrite <- Cscal_lin. f_equal.
    rewrite <- Csum_lin. apply Csum_ext. intros m Hm.
    rewrite (nth_map2 _ _ _ C0 C0) by lia.
    apply Cmul_lin_l.
Qed.

Lemma mul_lin (K X Y : list C) :
  length X = length K -> length Y = length K ->
  map2 Cmul K (map2 lin X Y) = map2 lin (map2 Cmul K X) (map2 Cmul K Y).
Proof.
  intros HX HY.
  apply nth_ext with (d := C0) (d' := C0).
  - rewrite !length_map2. lia.
  - rewrite !length_map2. intros k Hk.
    rewrite (nth_map2 Cmul _ _ C0 C0) by (rewrite ?length_map2; lia).
    rewrite (nth_map2 lin _ _ C0 C0) by (rewrite ?length_map2; lia).
    rewrite (nth_map2 lin _ _ C0 C0) by (rewrite ?length_map2; lia).
    rewrite !(nth_map2 Cmul _ _ C0 C0) by lia.
    apply Cmul_lin_r.
Qed.

Lemma Cre_lin (X Y : list C) :
  length X = length Y ->
  map Cre (map2 lin X Y) =
  map2 Rplus (map (Rmult a) (map Cre X)) (map (Rmult b) (map Cre Y)).
Proof.
  revert Y; induction X as [|x X IH]; intros [|y Y] H; simpl in *;
    try discriminate; auto.
  f_equal. apply IH. congruence.
Qed.

Lemma RtoC_lin (f g : list R) :
  length f = length g ->
  map RtoC (map2 Rplus (map (Rmult a) f) (map (Rmult b) g)) =
  map2 lin (map RtoC f) (map RtoC g).
Proof.
  revert g; induction f as [|x f IH]; intros [|y g] H; simpl in *;
    try discriminate; auto.
  f_equal; [|apply IH; congruence].
  apply C_eq; simpl; ring.
Qed.

End Linearity.

(** ** The spectral differentiator on matching shapes *)

Lemma gradient_same (arr kx : list R) :
  length kx = length arr ->
  gradient arr kx =
  Some (map Cre (ifft (map2 Cmul (map (fun k => Cmul Ci (RtoC k)) kx)
                                 (fft (map RtoC arr))))).
Proof.
  intros H. unfold gradient.
  rewrite broadcast_same by now rewrite length_map, length_fft, length_map.
  reflexivity.
Qed.

Lemma gradient_length (arr kx g : list R) :
  length kx = length arr -> gradient arr kx = Some g -> length g = length arr.
Proof.
  intros H E. rewrite gradient_same in E by assumption.
  injection E as <-.
  rewrite length_map, length_ifft, length_map2, length_map, length_fft, length_map.
  rewrite H. apply Nat.min_id.
Qed.

(** ** Transforms of zero and of constant arrays *)

Lemma Csum_C0 (f : nat -> C) (n : nat) :
  (forall i, (i < n)%nat -> f i = C0) -> Csum f n = C0.
Proof.
  induction n as [|n IH]; intros H; simpl; auto.
  rewrite IH, H by auto. apply C_eq; simpl; ring.
Qed.

Lemma Cmul_C0_l (w : C) : Cmul C0 w = C0.
Proof. apply C_eq; simpl; ring. Qed.

Lemma Cmul_C0_r (w : C) : Cmul w C0 = C0.
Proof. apply C_eq; simpl; ring. Qed.

Lemma Cscal_C0 (r : R) : Cscal r C0 = C0.
Proof. apply C_eq; simpl; ring. Qed.

Lemma nth_RtoC (g : list R) (m : nat) : nth m (map RtoC g) C0 = RtoC (nth m g 0).
Proof. exact (map_nth RtoC g 0 m). Qed.

Lemma fft_zero (a : list C) :
  (forall m, nth m a C0 = C0) -> forall k, nth k (fft a) C0 = C0.
Proof.
  intros H k. destruct (Nat.lt_ge_cases k (length a)) as [Hk|Hk].
  - rewrite nth_fft by assumption. apply Csum_C0. intros m _.
    rewrite H. apply Cmul_C0_l.
  - apply nth_overflow. now rewrite length_fft.
Qed.

Lemma ifft_zero (a : list C) :
  (forall m, nth m a C0 = C0) -> forall k, nth k (ifft a) C0 = C0.
Proof.
  intros H k. destruct (Nat.lt_ge_cases k (length a)) as [Hk|Hk].
  - rewrite nth_ifft by assumption. rewrite Csum_C0; [apply Cscal_C0|].
    intros m _. rewrite H. apply Cmul_C0_l.
  - apply nth_overflow. now rewrite length_ifft.
Qed.

Lemma nth_map2_zero {A : Type} (f : A -> C -> C) (w : list A) (z : list C) :
  (forall x, f x C0 = C0) ->
  (forall k, nth k z C0 = C0) -> forall k, nth k (map2 f w z) C0 = C0.
Proof.
  intros Hf H. revert z H. induction w as [|x w IH]; intros [|y z] H k; simpl;
    try (destruct k; reflexivity).
  destruct k as [|k].
  - specialize (H 0%nat). simpl in H. rewrite H. apply Hf.
  - apply IH. intros i. exact (H (S i)).
Qed.

Lemma Cre_zero (z : list C) :
  (forall k, nth k z C0 = C0) -> forall k, nth k (map Cre z) 0 = 0.
Proof.
  intros H k. change 0 with (Cre C0). rewrite map_nth. now rewrite H.
Qed.

Lemma RtoC_zero (f : list R) :
  (forall m, nth m f 0 = 0) -> forall m, nth m (map RtoC f) C0 = C0.
Proof. intros H m. rewrite nth_RtoC, H. reflexivity. Qed.

Lemma gradient_zero (f kx g : list R) :
  length kx = length f ->
  (forall m, nth m f 0 = 0) -> gradient f kx = Some g ->
  forall i, nth i g 0 = 0.
Proof.
  intros HL H E. rewrite gradient_same in E by assumption.
  injection E as <-.
  apply Cre_zero, ifft_zero.
  apply nth_map2_zero; [apply Cmul_C0_r|].
  apply fft_zero, RtoC_zero, H.
Qed.

Lemma fft_const (c : R) (N k : nat) :
  (0 < k < N)%nat -> nth k (fft (map RtoC (repeat c N))) C0 = C0.
Proof.
  intros Hk.
  assert (HL : length (map RtoC (repeat c N)) = N)
    by now rewrite length_map, repeat_length.
  rewrite nth_fft by lia. rewrite HL.
  destruct (roots_of_unity_sum N k Hk) as [Hc Hs].
  apply C_eq.
  - rewrite Cre_Csum.
    rewrite (Rsum_ext _ (fun m => c * cos (2 * PI * INR m * INR k / INR N))).
    + rewrite Rsum_scal, Hc. simpl. ring.
    + intros m Hm. rewrite nth_RtoC, nth_repeat_lt by assumption.
      simpl. rewrite cos_neg. ring.
  - rewrite Cim_Csum.
    rewrite (Rsum_ext _ (fun m => - c * sin (2 * PI * INR m * INR k / INR N))).
    + rewrite Rsum_scal, Hs. simpl. ring.
    + intros m Hm. rewrite nth_RtoC, nth_repeat_lt by assumption.
      simpl. rewrite sin_neg. ring.
Qed.

(** The derivative of a constant array vanishes when the wavenumber of the
    mode [k = 0] is zero. *)
Lemma gradient_const (c : R) (kx g : list R) (N : nat) :
  length kx = N -> nth 0 kx 0 = 0 ->
  gradient (repeat c N) kx = Some g ->
  forall i, nth i g 0 = 0.
Proof.
  intros HL H0 E.
  rewrite gradient_same in E by (now rewrite repeat_length).
  injection E as <-.
  apply Cre_zero, ifft_zero. intros k.
  set (K := map (fun k => Cmul Ci (RtoC k)) kx).
  set (F := fft (map RtoC (repeat c N))).
  assert (LK : length K = N) by (unfold K; now rewrite length_map).
  assert (LF : length F = N)
    by (unfold F; now rewrite length_fft, length_map, repeat_length).
  destruct (Nat.lt_ge_cases k N) as [Hk|Hk].
  - rewrite (nth_map2 Cmul K F C0 C0) by lia.
    destruct k as [|k].
    + unfold K. rewrite (nth_map_lt _ kx 0) by lia. rewrite H0.
      apply C_eq; simpl; ring.
    + unfold F. rewrite fft_const by lia. apply Cmul_C0_r.
  - apply nth_overflow. rewrite length_map2. lia.
Qed.

Lemma nth_irfft (a : list C) (j : nat) :
  (j < 2 * (length a - 1))%nat ->
  nth j (irfft a) 0 =
  / INR (2 * (length a - 1)) *
  (Cre (nth 0 a C0)
   + Rsum (fun k =>
             2 * Cre (Cmul (nth (S k) a C0)
                           (cis (2 * PI * INR j * INR (S k)
                                 / INR (2 * (length a - 1))))))
          (length a - 2)
   + Cre (nth (length a - 1) a C0) * cos (PI * INR j)).
Proof.
  intros H. unfold irfft.
  exact (nth_map_seq
    (fun j => / INR (2 * (length a - 1)) *
       (Cre (nth 0 a C0)
        + Rsum (fun k =>
             2 * Cre (Cmul (nth (S k) a C0)
                           (cis (2 * PI * INR j * INR (S k)
                                 / INR (2 * (length a - 1))))))
          (length a - 2)
        + Cre (nth (length a - 1) a C0) * cos (PI * INR j)))
    (2 * (length a - 1)) j 0 H).
Qed.

Lemma irfft_zero (a : list C) :
  (forall k, nth k a C0 = C0) -> forall j, nth j (irfft a) 0 = 0.
Proof.
  intros H j. destruct (Nat.lt_ge_cases j (2 * (length a - 1))) as [Hj|Hj].
  - rewrite nth_irfft by assumption.
    rewrite (Rsum_ext _ (fun _ => 0)).
    + rewrite Rsum_zero, !H. simpl. ring.
    + intros k _. rewrite H, Cmul_C0_l. simpl. ring.
  - apply nth_overflow. now rewrite length_irfft.
Qed.

Lemma rfft_zero (f : list R) :
  (forall m, nth m f 0 = 0) -> forall k, nth k (rfft f) C0 = C0.
Proof.
  intros H k. unfold rfft. rewrite nth_firstn.
  destruct (Nat.ltb _ _); [|reflexivity].
  apply fft_zero, RtoC_zero, H.
Qed.

Lemma filter_of_zero (w f : list R) :
  (forall m, nth m f 0 = 0) ->
  forall j, nth j (irfft (map2 Cscal w (rfft f))) 0 = 0.
Proof.
  intros H. apply irfft_zero, nth_map2_zero; [apply Cscal_C0|].
  now apply rfft_zero.
Qed.

Lemma nth_zeros (N i : nat) : nth i (zeros N) 0 = 0.
Proof. unfold zeros. apply nth_repeat. Qed.

(** ** The mean of an inverse transform *)

Lemma Cre_nth_ifft (Y : list C) (m : nat) :
  (m < length Y)%nat ->
  Cre (nth m (ifft Y) C0) =
  / INR (length Y) *
  Rsum (fun k => Cre (nth k Y C0) * cos (2 * PI * INR m * INR k / INR (length Y))
                 - Cim (nth k Y C0) * sin (2 * PI * INR m * INR k / INR (length Y)))
       (length Y).
Proof.
  intros H. rewrite nth_ifft by assumption.
  unfold Cscal. cbn [Cre fst]. f_equal.
  rewrite Cre_Csum. apply Rsum_ext. intros k _. reflexivity.
Qed.

Lemma roots_column_sum (N k : nat) :
  (k < N)%nat ->
  Rsum (fun m => cos (2 * PI * INR m * INR k / INR N)) N
    = (if Nat.eqb k 0 then INR N else 0) /\
  Rsum (fun m => sin (2 * PI * INR m * INR k / INR N)) N = 0.
Proof.
  intros Hk. destruct k as [|k].
  - cbn [Nat.eqb]. split.
    + rewrite (Rsum_ext _ (fun _ => 1)).
      * rewrite Rsum_const. ring.
      * intros m _. rewrite <- cos_0. f_equal. simpl INR. unfold Rdiv. ring.
    + rewrite (Rsum_ext _ (fun _ => 0)).
      * apply Rsum_zero.
      * intros m _. rewrite <- sin_0. f_equal. simpl INR. unfold Rdiv. ring.
  - cbn [Nat.eqb]. apply roots_of_unity_sum. lia.
Qed.

(** The samples of [real (ifft Y)] add up to the real part of [Y_0]. *)
Lemma sum_Cre_ifft (Y : list C) :
  (0 < length Y)%nat ->
  Rsum (fun m => nth m (map Cre (ifft Y)) 0) (length Y) = Cre (nth 0 Y C0).
Proof.
  intros HN. set (N := length Y) in *.
  assert (HN0 : INR N <> 0) by (apply not_0_INR; lia).
  rewrite (Rsum_ext _
    (fun m => / INR N *
       Rsum (fun k => Cre (nth k Y C0) * cos (2 * PI * INR m * INR k / INR N)
                      - Cim (nth k Y C0) * sin (2 * PI * INR m * INR k / INR N))
            N)).
  2:{ intros m Hm. change 0 with (Cre C0). rewrite map_nth.
      now apply Cre_nth_ifft. }
  rewrite Rsum_scal, Rsum_swap.
  rewrite (Rsum_single _ N 0%nat HN).
  - rewrite Rsum_minus, !Rsum_scal.
    destruct (roots_column_sum N 0 HN) as [-> ->]. cbn [Nat.eqb]. field. exact HN0.
  - intros k Hk Hk0. rewrite Rsum_minus, !Rsum_scal.
    destruct (roots_column_sum N k Hk) as [-> ->].
    destruct k; [contradiction|]. cbn [Nat.eqb]. ring.
Qed.

(** The mode [k = 0] of the transform of a real array is its sum. *)
Lemma fft_mode0 (E : list R) :
  (0 < length E)%nat ->
  nth 0 (fft (map RtoC E)) C0 = RtoC (Rsum (fun m => nth m E 0) (length E)).
Proof.
  intros HN. rewrite nth_fft by (now rewrite length_map).
  rewrite length_map. apply C_eq.
  - rewrite Cre_Csum. unfold RtoC. cbn [Cre fst]. apply Rsum_ext. intros m _.
    rewrite nth_RtoC.
    replace (- (2 * PI * INR m * INR 0 / INR (length E))) with 0
      by (simpl INR; unfold Rdiv; ring).
    unfold cis, Cmul, RtoC. cbn [Cre Cim fst snd]. rewrite cos_0, sin_0. ring.
  - rewrite Cim_Csum. unfold RtoC. cbn [Cim snd].
    rewrite (Rsum_ext _ (fun _ => 0)); [apply Rsum_zero|]. intros m _.
    rewrite nth_RtoC.
    replace (- (2 * PI * INR m * INR 0 / INR (length E))) with 0
      by (simpl INR; unfold Rdiv; ring).
    unfold cis, Cmul, RtoC. cbn [Cre Cim fst snd]. rewrite cos_0, sin_0. ring.
Qed.

(** ** The half-spectrum round trip *)

(** A sum over [0 .. 2h-1] of a sequence that is symmetric about [h]. *)
Lemma Rsum_paired (c : nat -> R) (h : nat) :
  (0 < h)%nat ->
  (forall k, (0 < k < 2 * h)%nat -> c (2 * h - k)%nat = c k) ->
  Rsum c (2 * h) = c 0%nat + 2 * Rsum (fun k => c (S k)) (h - 1) + c h.
Proof.
  intros Hh Hsym. destruct h as [|h']; [lia|].
  replace (2 * S h')%nat with (S (S h') + h')%nat by lia.
  replace (S h' - 1)%nat with h' by lia.
  rewrite Rsum_split, Rsum_front.
  change (Rsum (fun i => c (S i)) (S h'))
    with (Rsum (fun i => c (S i)) h' + c (S h')).
  rewrite (Rsum_ext (fun i => c (S (S h') + i)%nat)
                    (fun i => c (S (h' - 1 - i))%nat)).
  - rewrite <- (Rsum_rev (fun i => c (S i)) h'). ring.
  - intros i Hi. rewrite <- (Hsym (S (h' - 1 - i))) by lia. f_equal. lia.
Qed.

Lemma sin_nat_PI (j : nat) : sin (PI * INR j) = 0.
Proof.
  induction j as [|j IH].
  - simpl. rewrite Rmult_0_r. apply sin_0.
  - rewrite S_INR, Rmult_plus_distr_l, Rmult_1_r, neg_sin, IH. ring.
Qed.

Section Kernel.

Variables (N j m : nat).
Hypothesis HN : (0 < N)%nat.
Hypothesis Hj : (j < N)%nat.
Hypothesis Hm : (m < N)%nat.

Let c (k : nat) : R :=
  cos (2 * PI * INR j * INR k / INR N - 2 * PI * INR m * INR k / INR N).

Lemma kernel_symmetric (k : nat) : (0 < k < N)%nat -> c (N - k) = c k.
Proof.
  intros Hk. unfold c.
  assert (HN0 : INR N <> 0) by (apply not_0_INR; lia).
  rewrite minus_INR by lia.
  replace (2 * PI * INR j * (INR N - INR k) / INR N
           - 2 * PI * INR m * (INR N - INR k) / INR N)
    with ((2 * PI * INR j - 2 * PI * INR m)
          - (2 * PI * INR j * INR k / INR N - 2 * PI * INR m * INR k / INR N))
    by (field; exact HN0).
  rewrite cos_minus.
  rewrite (cos_minus (2 * PI * INR j)), (sin_minus (2 * PI * INR j)).
  rewrite !cos_full_turns, !sin_full_turns. ring.
Qed.

Lemma kernel_sum : Rsum c N = if Nat.eqb j m then INR N else 0.
Proof.
  assert (HN0 : INR N <> 0) by (apply not_0_INR; lia).
  destruct (Nat.eqb_spec j m) as [E|E].
  - subst m. rewrite (Rsum_ext c (fun _ => 1)).
    + rewrite Rsum_const. ring.
    + intros k _. unfold c. rewrite <- cos_0. f_equal. ring.
  - destruct (Nat.lt_ge_cases m j) as [Hlt|Hge].
    + destruct (roots_of_unity_sum N (j - m)) as [Hc _]; [lia|].
      rewrite <- Hc. apply Rsum_ext. intros k _. unfold c. f_equal.
      rewrite minus_INR by lia. field. exact HN0.
    + destruct (roots_of_unity_sum N (m - j)) as [Hc _]; [lia|].
      rewrite <- Hc. apply Rsum_ext. intros k _. unfold c.
      rewrite <- cos_neg. f_equal.
      rewrite minus_INR by lia. field. exact HN0.
Qed.

End Kernel.

Lemma Cre_fft_twist (g : list R) (k : nat) (beta : R) :
  (k < length g)%nat ->
  Cre (Cmul (nth k (fft (map RtoC g)) C0) (cis beta)) =
  Rsum (fun m => nth m g 0
                 * cos (beta - 2 * PI * INR m * INR k / INR (length g)))
       (length g).
Proof.
  intros Hk. rewrite nth_fft by (now rewrite length_map). rewrite length_map.
  unfold Cmul at 1. cbn [Cre fst].
  rewrite Cre_Csum, Cim_Csum.
  unfold cis at 3 4. cbn [Cre Cim fst snd].
  rewrite <- !Rsum_scal_r, <- Rsum_minus.
  apply Rsum_ext. intros m _.
  rewrite nth_RtoC. unfold Cmul, RtoC, cis. cbn [Cre Cim fst snd].
  rewrite cos_neg, sin_neg, cos_minus. ring.
Qed.

Lemma Cscal_1 (z : C) : Cscal 1 z = z.
Proof. apply C_eq; simpl; ring. Qed.

(** With the all-ones filter the half-spectrum transforms undo each other
    on an array of even length. *)
Lemma irfft_rfft_ones (g : list R) (h : nat) :
  (0 < h)%nat -> length g = (2 * h)%nat ->
  irfft (map2 Cscal (ones (S h)) (rfft g)) = g.
Proof.
  intros Hh Hg.
  set (N := (2 * h)%nat) in *.
  assert (HN0 : INR N <> 0) by (apply not_0_INR; unfold N; lia).
  assert (Lr : length (rfft g) = S h).
  { rewrite length_rfft by lia. rewrite Hg. unfold N.
    rewrite Nat.mul_comm, Nat.div_mul by lia. lia. }
  set (z := map2 Cscal (ones (S h)) (rfft g)).
  assert (Lz : length z = S h)
    by (unfold z; rewrite length_map2, length_ones, Lr; apply Nat.min_id).
  assert (Hz : forall k, (k <= h)%nat ->
                         nth k z C0 = nth k (fft (map RtoC g)) C0).
  { intros k Hk. unfold z.
    rewrite (nth_map2 Cscal _ _ 0 C0) by (rewrite ?length_ones, ?Lr; lia).
    rewrite nth_ones by lia. rewrite Cscal_1.
    unfold rfft. rewrite nth_firstn.
    rewrite Hg. unfold N. rewrite Nat.mul_comm, Nat.div_mul by lia.
    destruct (Nat.ltb_spec k (h + 1)); [reflexivity|lia]. }
  apply nth_ext with (d := 0) (d' := 0).
  { rewrite length_irfft, Lz, Hg. unfold N. lia. }
  rewrite length_irfft, Lz. intros j Hj.
  assert (HjN : (j < N)%nat) by (unfold N; lia).
  rewrite nth_irfft by (rewrite Lz; exact Hj).
  rewrite Lz.
  replace (2 * (S h - 1))%nat with N by (unfold N; lia).
  replace (S h - 2)%nat with (h - 1)%nat by lia.
  replace (S h - 1)%nat with h by lia.
  set (T := fun k =>
              Rsum (fun m => nth m g 0
                     * cos (2 * PI * INR j * INR k / INR N
                            - 2 * PI * INR m * INR k / INR N)) N).
  assert (HT : forall k, (k < N)%nat ->
             Cre (Cmul (nth k (fft (map RtoC g)) C0)
                       (cis (2 * PI * INR j * INR k / INR N))) = T k).
  { intros k Hk. rewrite Cre_fft_twist by (rewrite Hg; exact Hk).
    rewrite Hg. reflexivity. }
  assert (H0 : Cre (nth 0 z C0) = T 0%nat).
  { rewrite Hz by lia. rewrite <- HT by (unfold N; lia).
    replace (2 * PI * INR j * INR 0 / INR N) with 0
      by (simpl INR; unfold Rdiv; ring).
    unfold Cmul, cis. cbn [Cre Cim fst snd]. rewrite cos_0, sin_0. ring. }
  assert (Hh' : Cre (nth h z C0) * cos (PI * INR j) = T h).
  { rewrite Hz by lia. rewrite <- HT by (unfold N; lia).
    replace (2 * PI * INR j * INR h / INR N) with (PI * INR j).
    - unfold Cmul, cis. cbn [Cre Cim fst snd]. rewrite sin_nat_PI. ring.
    - unfold N. rewrite mult_INR. simpl INR.
      assert (INR h <> 0) by (apply not_0_INR; lia). field. assumption. }
  rewrite H0, Hh'.
  rewrite (Rsum_ext _ (fun k => 2 * T (S k))).
  2:{ intros k Hk. rewrite Hz by lia. rewrite HT by (unfold N; lia).
      reflexivity. }
  rewrite Rsum_scal.
  rewrite <- (Rsum_paired T h Hh).
  2:{ intros k Hk. unfold T. apply Rsum_ext. intros m Hm.
      f_equal. apply (kernel_symmetric N j m); unfold N; lia. }
  fold N. unfold T. rewrite Rsum_swap.
  rewrite (Rsum_single _ N j HjN).
  - rewrite Rsum_scal.
    rewrite (kernel_sum N j j) by (unfold N; lia).
    rewrite Nat.eqb_refl. field. exact HN0.
  - intros m Hm Hne. rewrite Rsum_scal.
    rewrite (kernel_sum N j m) by (unfold N; lia).
    destruct (Nat.eqb_spec j m); [congruence|]. ring.
Qed.

Lemma zero_filter (w : list R) (z : list C) :
  (forall k, nth k w 0 = 0) -> forall k, nth k (map2 Cscal w z) C0 = C0.
Proof.
  revert z; induction w as [|x w IH]; intros [|y z] H k; simpl;
    try (destruct k; reflexivity).
  destruct k as [|k].
  - specialize (H 0%nat). simpl in H. rewrite H. apply C_eq; simpl; ring.
  - apply IH. intros i. exact (H (S i)).
Qed.

(** ** The interpolation on an increasing table *)

Lemma filter_keep_all {A : Type} (P : A -> bool) (l : list A) :
  (forall x, In x l -> P x = true) -> filter P l = l.
Proof.
  induction l as [|x l IH]; intros H; simpl; auto.
  rewrite (H x (or_introl eq_refl)). f_equal. apply IH.
  intros y Hy. apply H. now right.
Qed.

Lemma filter_keep_none {A : Type} (P : A -> bool) (l : list A) :
  (forall x, In x l -> P x = false) -> filter P l = [].
Proof.
  induction l as [|x l IH]; intros H; simpl; auto.
  rewrite (H x (or_introl eq_refl)). apply IH.
  intros y Hy. apply H. now right.
Qed.

Lemma last_as_nth (l : list R) : last l 0 = nth (length l - 1) l 0.
Proof.
  induction l as [|x [|y l] IH]; try reflexivity.
  change (last (x :: y :: l) 0) with (last (y :: l) 0). rewrite IH.
  simpl length. replace (S (S (length l)) - 1)%nat with (S (length l - 0)) by lia.
  simpl. now rewrite Nat.sub_0_r.
Qed.

Section Interpolation.

Variables (xp fp : list R) (left right : R).

Hypothesis xp_increasing :
  forall a b, (a < b < length xp)%nat -> nth a xp 0 < nth b xp 0.

Lemma interp1_below (x : R) :
  x < nth 0 xp 0 -> interp1 xp fp left right x = left.
Proof.
  intros H. unfold interp1, Rltb.
  destruct (Rlt_dec x (nth 0 xp 0)); [reflexivity|contradiction].
Qed.

Lemma interp1_above (x : R) :
  (0 < length xp)%nat -> last xp 0 < x -> interp1 xp fp left right x = right.
Proof.
  intros HL H. unfold interp1, Rltb.
  destruct (Rlt_dec x (nth 0 xp 0)) as [Hlt|_].
  - exfalso. rewrite last_as_nth in H.
    destruct (Nat.eq_dec (length xp - 1) 0) as [E|E].
    + rewrite E in H. lra.
    + assert (nth 0 xp 0 < nth (length xp - 1) xp 0)
        by (apply xp_increasing; lia). lra.
  - destruct (Rlt_dec (last xp 0) x); [reflexivity|contradiction].
Qed.

Lemma searchsorted_between (x : R) (i : nat) :
  (S i < length xp)%nat ->
  nth i xp 0 <= x -> x < nth (S i) xp 0 ->
  searchsorted_right xp x = S i.
Proof.
  intros Hi Hlo Hhi. unfold searchsorted_right.
  rewrite <- (firstn_skipn (S i) xp), filter_app, length_app.
  rewrite filter_keep_all, filter_keep_none.
  - rewrite length_firstn. simpl length. lia.
  - intros v Hv. apply (In_nth _ _ 0) in Hv. destruct Hv as (a & Ha & <-).
    rewrite nth_skipn. unfold Rleb.
    destruct (Rle_dec (nth (S i + a) xp 0) x) as [Hle|]; [|reflexivity].
    exfalso. rewrite length_skipn in Ha.
    destruct a as [|a].
    + rewrite Nat.add_0_r in Hle. lra.
    + assert (nth (S i) xp 0 < nth (S i + S a) xp 0)
        by (apply xp_increasing; lia). lra.
  - intros v Hv. apply (In_nth _ _ 0) in Hv. destruct Hv as (a & Ha & <-).
    rewrite length_firstn in Ha.
    rewrite nth_firstn.
    destruct (Nat.ltb_spec a (S i)) as [Hlt|]; [|lia].
    unfold Rleb. destruct (Rle_dec (nth a xp 0) x) as [|Hn]; [reflexivity|].
    exfalso. apply Hn.
    destruct (Nat.eq_dec a i) as [->|Hne]; [exact Hlo|].
    assert (nth a xp 0 < nth i xp 0) by (apply xp_increasing; lia). lra.
Qed.

(** Between two neighbouring nodes the interpolant is the chord. *)
Lemma interp1_chord (x : R) (i : nat) :
  (S i < length xp)%nat ->
  nth i xp 0 <= x -> x < nth (S i) xp 0 ->
  interp1 xp fp left right x =
  nth i fp 0
  + (x - nth i xp 0) / (nth (S i) xp 0 - nth i xp 0)
    * (nth (S i) fp 0 - nth i fp 0).
Proof.
  intros Hi Hlo Hhi. unfold interp1, Rltb.
  destruct (Rlt_dec x (nth 0 xp 0)) as [Hlt|_].
  { exfalso. destruct i as [|i]; [lra|].
    assert (nth 0 xp 0 < nth (S i) xp 0) by (apply xp_increasing; lia). lra. }
  destruct (Rlt_dec (last xp 0) x) as [Hgt|_].
  { exfalso. rewrite last_as_nth in Hgt.
    destruct (Nat.eq_dec (length xp - 1) (S i)) as [E|E].
    - rewrite E in Hgt. lra.
    - assert (nth (S i) xp 0 < nth (length xp - 1) xp 0)
        by (apply xp_increasing; lia). lra. }
  rewrite (searchsorted_between x i Hi Hlo Hhi).
  unfold clip. rewrite Nat.max_l, Nat.min_l by lia.
  replace (S i - 1)%nat with i by lia. reflexivity.
Qed.

(** At the last node the interpolant takes the last tabulated value. *)
Lemma interp1_last_node :
  (2 <= length xp)%nat ->
  interp1 xp fp left right (last xp 0) = nth (length xp - 1) fp 0.
Proof.
  intros HL. unfold interp1, Rltb.
  rewrite last_as_nth.
  set (L := (length xp - 1)%nat).
  assert (H0L : nth 0 xp 0 < nth L xp 0) by (apply xp_increasing; unfold L; lia).
  destruct (Rlt_dec (nth L xp 0) (nth 0 xp 0)) as [Hlt|_]; [lra|].
  destruct (Rlt_dec (nth L xp 0) (nth L xp 0)) as [Hgt|_]; [lra|].
  assert (Hs : searchsorted_right xp (nth L xp 0) = length xp).
  { unfold searchsorted_right. rewrite filter_keep_all; [reflexivity|].
    intros v Hv. apply (In_nth _ _ 0) in Hv. destruct Hv as (a & Ha & <-).
    unfold Rleb. destruct (Rle_dec (nth a xp 0) (nth L xp 0)) as [|Hn];
      [reflexivity|].
    exfalso. apply Hn.
    destruct (Nat.eq_dec a L) as [->|Hne]; [lra|].
    assert (nth a xp 0 < nth L xp 0) by (apply xp_increasing; unfold L; lia).
    lra. }
  rewrite Hs. unfold clip. rewrite Nat.max_l, Nat.min_r by lia. fold L.
  assert (Hd : nth (L - 1) xp 0 < nth L xp 0)
    by (apply xp_increasing; unfold L; lia).
  field. lra.
Qed.

End Interpolation.

(** * The functions of the source *)

(** ** The frequency table *)

Section Table.

Variable solver : R -> R -> R -> C.

Let wr (k : R) : R := Cre (solver 1 1 k).
Let wi (k : R) : R := Cim (solver 1 1 k).

Lemma assign_fill (pre : list R) (i k : nat) (v : R) :
  length pre = i ->
  assign (pre ++ zeros (S k)) i v = Some ((pre ++ [v]) ++ zeros k).
Proof.
  intros <-. unfold assign.
  assert (H : (length pre <? length (pre ++ zeros (S k)))%nat = true).
  { apply Nat.ltb_lt. rewrite length_app. simpl. lia. }
  rewrite H. f_equal.
  rewrite firstn_app, Nat.sub_diag, firstn_all. simpl firstn. rewrite app_nil_r.
  rewrite skipn_app, skipn_all2 by lia.
  replace (S (length pre) - length pre)%nat with 1%nat by lia.
  simpl. now rewrite <- app_assoc.
Qed.

Lemma assign_full (l : list R) (i : nat) (v : R) :
  length l = i -> assign l i v = None.
Proof. intros <-. unfold assign. now rewrite Nat.ltb_irrefl. Qed.

Lemma table_loop_raised (l : list (nat * R)) : fold_left (table_step solver) l None = None.
Proof. induction l as [|x l IH]; simpl; auto. Qed.

(** The loop, started after [length pre] assignments, on a buffer that
    still has room for the remaining samples. *)
Lemma table_loop_fits (rest pre : list R) (k : nat) :
  fold_left (table_step solver)
            (combine (seq (length pre) (length rest)) rest)
            (Some (map wr pre ++ zeros (length rest + k),
                   map wi pre ++ zeros (length rest + k)))
  = Some (map wr (pre ++ rest) ++ zeros k, map wi (pre ++ rest) ++ zeros k).
Proof.
  revert pre; induction rest as [|x rest IH]; intros pre.
  - simpl. now rewrite app_nil_r.
  - simpl combine. simpl fold_left.
    rewrite (assign_fill (map wr pre)) by apply length_map. simpl bind.
    rewrite (assign_fill (map wi pre)) by apply length_map. simpl bind.
    specialize (IH (pre ++ [x])).
    rewrite length_app, Nat.add_1_r in IH.
    rewrite !map_app in IH. simpl map in IH.
    fold (wr x). fold (wi x).
    rewrite IH. rewrite !map_app. simpl map. rewrite <- !app_assoc. reflexivity.
Qed.

(** The loop on a buffer that is full after [length pre] assignments. *)
Lemma table_loop_overflow (x : R) (rest pre : list R) :
  fold_left (table_step solver)
            (combine (seq (length pre) (S (length rest))) (x :: rest))
            (Some (map wr pre, map wi pre))
  = None.
Proof.
  simpl combine. simpl fold_left.
  rewrite assign_full by apply length_map. simpl bind. apply table_loop_raised.
Qed.

Lemma length_linspace (a b : R) (n : nat) : length (linspace a b n) = n.
Proof. unfold linspace. now rewrite length_map, length_seq. Qed.

Lemma nth_linspace (a b : R) (n i : nat) :
  (i < n)%nat ->
  nth i (linspace a b n) 0 = a + INR i * ((b - a) / INR (n - 1)).
Proof.
  intros H.
  exact (nth_map_seq (fun j => a + INR j * ((b - a) / INR (n - 1))) n i 0 H).
Qed.

Lemma table_loop_from_zeros (klds : list R) (k : nat) :
  fold_left (table_step solver) (combine (seq 0 (length klds)) klds)
            (Some (zeros (length klds + k), zeros (length klds + k)))
  = Some (map wr klds ++ zeros k, map wi klds ++ zeros k).
Proof. exact (table_loop_fits klds [] k). Qed.

(** A larger [num] leaves the trailing [num - 128] entries of the two
    frequency arrays at zero, next to 128 wavenumbers. *)
Lemma get_complex_frequency_table_large (k : nat) :
  get_complex_frequency_table solver (128 + k) =
  Some (map wr (linspace 0.2 0.4 128) ++ zeros k,
        map wi (linspace 0.2 0.4 128) ++ zeros k,
        linspace 0.2 0.4 128).
Proof.
  unfold get_complex_frequency_table.
  set (klds := linspace 0.2 0.4 128).
  assert (HL : length klds = 128%nat) by apply length_linspace.
  pose proof (table_loop_from_zeros klds k) as H.
  rewrite HL in H. cbv zeta. rewrite HL, H. reflexivity.
Qed.

(** With [num = 128] the table holds the real and imaginary parts of the
    root at each of the 128 wavenumbers. *)
Lemma get_complex_frequency_table_128 :
  get_complex_frequency_table solver 128 =
  Some (map wr (linspace 0.2 0.4 128), map wi (linspace 0.2 0.4 128),
        linspace 0.2 0.4 128).
Proof.
  change 128%nat with (128 + 0)%nat at 1.
  rewrite get_complex_frequency_table_large.
  unfold zeros. simpl repeat. now rewrite !app_nil_r.
Qed.

(** A smaller [num] makes the assignment at index [num] raise. *)
Lemma get_complex_frequency_table_small (num : nat) :
  (num < 128)%nat -> get_complex_frequency_table solver num = None.
Proof.
  intros Hn. unfold get_complex_frequency_table.
  set (klds := linspace 0.2 0.4 128).
  assert (HL : length klds = 128%nat) by apply length_linspace.
  cbv zeta.
  assert (Hf : length (firstn num klds) = num)
    by (rewrite length_firstn; lia).
  destruct (skipn num klds) as [|x rest] eqn:Es.
  { pose proof (length_skipn num klds) as Hs. rewrite Es, HL in Hs.
    simpl length in Hs. lia. }
  assert (Hr : length klds = (num + S (length rest))%nat).
  { rewrite <- (firstn_skipn num klds) at 1. rewrite length_app, Hf, Es. reflexivity. }
  rewrite Hr, seq_app.
  rewrite <- (firstn_skipn num klds) at 1. rewrite Es.
  rewrite combine_app by (rewrite length_seq; lia).
  rewrite fold_left_app.
  pose proof (table_loop_from_zeros (firstn num klds) 0) as H.
  rewrite Hf, Nat.add_0_r in H. unfold zeros at 3 4 in H. simpl repeat in H.
  rewrite !app_nil_r in H. rewrite H.
  simpl Nat.add.
  pose proof (table_loop_overflow x rest (firstn num klds)) as H2.
  rewrite Hf in H2. rewrite H2. reflexivity.
Qed.

End Table.

(** The 128 wavenumbers start at 0.2, end at 0.4 and increase strictly. *)
Lemma klds_first : nth 0 (linspace 0.2 0.4 128) 0 = 0.2.
Proof. rewrite nth_linspace by lia. simpl INR. lra. Qed.

Lemma INR_127 : INR (128 - 1) = 127.
Proof.
  replace (128 - 1)%nat with 127%nat by reflexivity.
  rewrite INR_IZR_INZ. reflexivity.
Qed.

Lemma klds_last : nth 127 (linspace 0.2 0.4 128) 0 = 0.4.
Proof.
  rewrite nth_linspace by lia. rewrite INR_127.
  replace (INR 127) with 127 by (rewrite INR_IZR_INZ; reflexivity). lra.
Qed.

Lemma klds_increasing (i j : nat) :
  (i < j < 128)%nat ->
  nth i (linspace 0.2 0.4 128) 0 < nth j (linspace 0.2 0.4 128) 0.
Proof.
  intros [Hij Hj]. rewrite !nth_linspace by lia. rewrite INR_127.
  apply lt_INR in Hij. lra.
Qed.

(** ** Construction of the filters *)

Lemma map2_map_map {A B D E : Type} (h : B -> D -> E) (f : A -> B) (g : A -> D)
  (l : list A) :
  map2 h (map f l) (map g l) = map (fun x => h (f x) (g x)) l.
Proof. induction l as [|x l IH]; simpl; [|rewrite IH]; reflexivity. Qed.

Lemma interp_same (x xp fp : list R) (left right : R) :
  length xp = length fp ->
  interp x xp fp left right = Some (map (interp1 xp fp left right) x).
Proof. intros H. unfold interp. now rewrite H, Nat.eqb_refl. Qed.

Section Filters.

Variable solver : R -> R -> R -> C.

Let klds : list R := linspace 0.2 0.4 128.
Let wrs : list R := map (fun k => Cre (solver 1 1 k)) klds.
Let wis : list R := map (fun k => Cim (solver 1 1 k)) klds.

Lemma VelocityStepper_init_eq (kx kxr : list R) (physics : Physics) :
  VelocityStepper_init solver kx kxr physics =
  Some (mkVelocityStepper kx
          (if landau_damping physics
           then map (interp1 klds wis 0 (last wis 0)) kxr
           else zeros (length kxr))
          (if kinetic_real_wepw physics
           then map (fun k => interp1 klds wrs 0 (last wrs 0) k
                              / sqrt (1 + 3 * k ^ 2)) kxr
           else ones (length kxr))).
Proof.
  unfold VelocityStepper_init.
  rewrite get_complex_frequency_table_128. cbn [bind fst snd].
  fold klds. fold wrs. fold wis.
  rewrite interp_same by (unfold wrs; now rewrite length_map).
  cbn [bind].
  destruct (kinetic_real_wepw physics), (landau_damping physics);
    rewrite ?interp_same by (unfold wis; now rewrite length_map);
    rewrite ?broadcast_same by (now rewrite !length_map);
    cbn [bind]; rewrite ?map2_map_map; reflexivity.
Qed.

Lemma ParticleTrapper_init_eq (kxr kx : list R) :
  ParticleTrapper_init solver kxr kx =
  Some (mkParticleTrapper kxr (map (interp1 klds wis 0 0) kxr) kx).
Proof.
  unfold ParticleTrapper_init.
  rewrite get_complex_frequency_table_128. cbn [bind fst snd].
  fold klds. fold wis.
  rewrite interp_same by (unfold wis; now rewrite length_map).
  reflexivity.
Qed.

End Filters.

(** ** Filters on matching shapes *)

Lemma broadcast_flip {A B D : Type} (f : A -> B -> D) (a : list A) (b : list B) :
  broadcast (fun y x => f x y) b a = broadcast f a b.
Proof.
  unfold broadcast. rewrite (Nat.eqb_sym (length b) (length a)).
  destruct (Nat.eqb_spec (length a) (length b)) as [E|E].
  - f_equal. revert b E; induction a as [|x a IH]; intros [|y b] E; simpl in *;
      try discriminate; auto. f_equal. apply IH. congruence.
  - destruct a as [|x [|x' a]], b as [|y [|y' b]]; simpl in *; try reflexivity;
      contradiction E; reflexivity.
Qed.

Lemma half_spectrum_filter_same (w f : list R) (h : nat) :
  (0 < h)%nat -> length f = (2 * h)%nat -> length w = S h ->
  half_spectrum_filter w f = Some (irfft (map2 Cscal w (rfft f))) /\
  length (irfft (map2 Cscal w (rfft f))) = (2 * h)%nat.
Proof.
  intros Hh Hf Hw.
  assert (Hr : length (rfft f) = S h).
  { rewrite length_rfft by lia. rewrite Hf.
    rewrite Nat.mul_comm, Nat.div_mul by lia. lia. }
  split.
  - unfold half_spectrum_filter. rewrite broadcast_same by congruence. reflexivity.
  - rewrite length_irfft, length_map2, Hw, Hr, Nat.min_id. lia.
Qed.

(** ** The trapping step *)

Lemma ParticleTrapper_call_rhs (self : ParticleTrapper) (e delta : list R) :
  ParticleTrapper_call self e delta =
  trapping_rhs (pt_kx self) (pt_wis self) e delta.
Proof.
  unfold ParticleTrapper_call, trapping_rhs, trapping_forcing,
    half_spectrum_filter, lift2.
  rewrite (broadcast_flip Cscal (pt_wis self) (rfft e)).
  destruct (gradient delta (pt_kx self)) as [gd|]; cbn [bind option_map];
    [|reflexivity].
  destruct (broadcast Cscal (pt_wis self) (rfft e)) as [z|];
    cbn [bind option_map]; [|reflexivity].
  destruct (broadcast Rplus _ _); reflexivity.
Qed.

Lemma forcing_nonneg (l : list R) (i : nat) :
  0 <= nth i (map (fun x => 100 * Rabs x) l) 0.
Proof.
  destruct (Nat.lt_ge_cases i (length l)) as [H|H].
  - rewrite (nth_map_lt _ _ 0) by assumption.
    pose proof (Rabs_pos (nth i l 0)). lra.
  - rewrite nth_overflow by (now rewrite length_map). lra.
Qed.

(** ** The velocity step *)

Lemma VelocityStepper_call_rhs (self : VelocityStepper) (n u p q delta : list R) :
  VelocityStepper_call self n u p q delta =
  velocity_rhs (vs_kx self) (vs_wr_corr self) (vs_wis self) n u p q delta.
Proof.
  unfold VelocityStepper_call, velocity_rhs, restoring_force_term,
    landau_damping_term, half_spectrum_filter, lift2.
  destruct (gradient u (vs_kx self)) as [gu|]; cbn [bind]; [|reflexivity].
  destruct (broadcast Rmult (map Ropp u) gu) as [t1|]; cbn [bind]; [|reflexivity].
  destruct (gradient p (vs_kx self)) as [gp|]; cbn [bind]; [|reflexivity].
  destruct (broadcast Rdiv gp n) as [g|]; cbn [bind]; [|reflexivity].
  destruct (broadcast Cscal (vs_wr_corr self) (rfft g)) as [z|]; cbn [bind];
    [|reflexivity].
  destruct (broadcast Rminus t1 (irfft z)) as [t2|]; cbn [bind]; [|reflexivity].
  destruct (broadcast Rminus t2 q) as [t3|]; cbn [bind]; [|reflexivity].
  destruct (broadcast Cscal (vs_wis self) (rfft u)) as [z'|]; cbn [bind];
    [|reflexivity].
  destruct (broadcast Rdiv (irfft z') _); reflexivity.
Qed.

(** The call on an even grid, entry by entry. *)
Lemma VelocityStepper_call_even (self : VelocityStepper)
  (n u p q delta : list R) (h : nat) :
  (0 < h)%nat ->
  length (vs_kx self) = (2 * h)%nat ->
  length (vs_wr_corr self) = S h -> length (vs_wis self) = S h ->
  length n = (2 * h)%nat -> length u = (2 * h)%nat -> length p = (2 * h)%nat ->
  length q = (2 * h)%nat -> length delta = (2 * h)%nat ->
  exists du dp rf ld,
    gradient u (vs_kx self) = Some du /\ length du = (2 * h)%nat /\
    gradient p (vs_kx self) = Some dp /\ length dp = (2 * h)%nat /\
    rf = irfft (map2 Cscal (vs_wr_corr self) (rfft (map2 Rdiv dp n))) /\
    half_spectrum_filter (vs_wr_corr self) (map2 Rdiv dp n) = Some rf /\
    ld = irfft (map2 Cscal (vs_wis self) (rfft u)) /\
    half_spectrum_filter (vs_wis self) u = Some ld /\
    VelocityStepper_call self n u p q delta =
      Some (map (fun i => - nth i u 0 * nth i du 0 - nth i rf 0 - nth i q 0
                          + nth i ld 0 / (1 + nth i delta 0 ^ 2))
                (seq 0 (2 * h))).
Proof.
  intros Hh Hkx Hwr Hwi Hn Hu Hp Hq Hd.
  destruct (gradient u (vs_kx self)) as [du|] eqn:Eu;
    [|rewrite gradient_same in Eu by congruence; discriminate].
  destruct (gradient p (vs_kx self)) as [dp|] eqn:Ep;
    [|rewrite gradient_same in Ep by congruence; discriminate].
  pose proof (gradient_length _ _ _ (eq_trans Hkx (eq_sym Hu)) Eu) as Ldu.
  pose proof (gradient_length _ _ _ (eq_trans Hkx (eq_sym Hp)) Ep) as Ldp.
  assert (Lg : length (map2 Rdiv dp n) = (2 * h)%nat)
    by (rewrite length_map2; lia).
  destruct (half_spectrum_filter_same (vs_wr_corr self) _ h Hh Lg Hwr) as [Erf Lrf].
  destruct (half_spectrum_filter_same (vs_wis self) u h Hh Hu Hwi) as [Eld Lld].
  exists du, dp. do 2 eexists.
  split; [reflexivity|]. split; [lia|]. split; [reflexivity|]. split; [lia|].
  split; [reflexivity|]. split; [exact Erf|]. split; [reflexivity|].
  split; [exact Eld|].
  rewrite VelocityStepper_call_rhs. unfold velocity_rhs, lift2.
  rewrite Eu, Ep. cbn [bind].
  rewrite (broadcast_same Rdiv dp n) by lia. cbn [bind].
  rewrite Erf, Eld. cbn [bind].
  rewrite (broadcast_same Rmult) by (rewrite length_map; lia). cbn [bind].
  rewrite (broadcast_same Rminus) by (rewrite length_map2, length_map; lia).
  cbn [bind].
  rewrite (broadcast_same Rminus) by (rewrite !length_map2, length_map; lia).
  cbn [bind].
  rewrite (broadcast_same Rdiv) by (rewrite length_map; lia). cbn [bind].
  rewrite (broadcast_same Rplus) by (rewrite !length_map2, !length_map; lia).
  f_equal. apply list_as_map_seq with (d := 0).
  - rewrite !length_map2, !length_map. lia.
  - intros i Hi.
    rewrite (nth_map2 Rplus _ _ 0 0) by (rewrite !length_map2, ?length_map; lia).
    rewrite (nth_map2 Rminus _ _ 0 0) by (rewrite ?length_map2, ?length_map; lia).
    rewrite (nth_map2 Rminus _ _ 0 0) by (rewrite ?length_map2, ?length_map; lia).
    rewrite (nth_map2 Rmult _ _ 0 0) by (rewrite ?length_map; lia).
    rewrite (nth_map2 Rdiv _ _ 0 0) by (rewrite ?length_map; lia).
    rewrite (nth_map_lt Ropp u 0) by lia.
    rewrite (nth_map_lt _ delta 0) by lia.
    reflexivity.
Qed.

Lemma length_filter_arrays (solver : R -> R -> R -> C) (kx kxr : list R)
  (physics : Physics) (self : VelocityStepper) :
  VelocityStepper_init solver kx kxr physics = Some self ->
  vs_kx self = kx /\
  length (vs_wr_corr self) = length kxr /\ length (vs_wis self) = length kxr.
Proof.
  rewrite VelocityStepper_init_eq. intros E. injection E as <-.
  cbn [vs_kx vs_wr_corr vs_wis]. split; [reflexivity|].
  destruct (kinetic_real_wepw physics), (landau_damping physics);
    unfold ones, zeros; rewrite ?length_map, ?repeat_length; auto.
Qed.

(** ** The steppers entry by entry *)

Lemma gradient_total (arr kx : list R) :
  length kx = length arr ->
  exists g, gradient arr kx = Some g /\ length g = length arr.
Proof.
  intros H. destruct (gradient arr kx) as [g|] eqn:E.
  - exists g. split; [reflexivity|]. eapply gradient_length; eauto.
  - rewrite gradient_same in E by assumption. discriminate.
Qed.

Lemma DensityStepper_call_pointwise (kx n u : list R) :
  length kx = length n -> length u = length n ->
  exists dn du,
    gradient n kx = Some dn /\ gradient u kx = Some du /\
    DensityStepper_call (DensityStepper_init kx) n u =
      Some (map (fun i => - nth i u 0 * nth i dn 0 - nth i n 0 * nth i du 0)
                (seq 0 (length n))).
Proof.
  intros Hk Hu.
  destruct (gradient_total n kx Hk) as (dn & En & Ln).
  destruct (gradient_total u kx) as (du & Eu & Lu); [congruence|].
  exists dn, du. split; [assumption|]. split; [assumption|].
  unfold DensityStepper_call, DensityStepper_init. cbn [ds_kx].
  rewrite En, Eu. cbn [bind].
  rewrite (broadcast_same Rmult (map Ropp u)) by (rewrite length_map; lia).
  cbn [bind].
  rewrite (broadcast_same Rmult n) by lia. cbn [bind].
  rewrite broadcast_same by (rewrite !length_map2, length_map; lia).
  f_equal. apply list_as_map_seq with (d := 0).
  - rewrite !length_map2, length_map. lia.
  - intros i Hi.
    rewrite (nth_map2 Rminus _ _ 0 0) by (rewrite length_map2, ?length_map; lia).
    rewrite (nth_map2 Rmult _ _ 0 0) by (rewrite ?length_map; lia).
    rewrite (nth_map2 Rmult _ _ 0 0) by lia.
    rewrite (nth_map_lt Ropp u 0) by lia.
    reflexivity.
Qed.

Lemma EnergyStepper_call_pointwise (kx : list R) (gamma : R) (n u p q : list R) :
  length kx = length u -> length p = length u ->
  exists du dp,
    gradient u kx = Some du /\ gradient p kx = Some dp /\
    EnergyStepper_call (EnergyStepper_init kx gamma) n u p q =
      Some (map (fun i => - nth i u 0 * nth i dp 0
                          - gamma * nth i p 0 * nth i du 0)
                (seq 0 (length u))).
Proof.
  intros Hk Hp.
  destruct (gradient_total u kx Hk) as (du & Eu & Lu).
  destruct (gradient_total p kx) as (dp & Ep & Lp); [congruence|].
  exists du, dp. split; [assumption|]. split; [assumption|].
  unfold EnergyStepper_call, EnergyStepper_init. cbn [es_kx es_gamma].
  rewrite Ep, Eu. cbn [bind].
  rewrite (broadcast_same Rmult (map Ropp u)) by (rewrite length_map; lia).
  cbn [bind].
  rewrite (broadcast_same Rmult) by (rewrite length_map; lia). cbn [bind].
  rewrite broadcast_same by (rewrite !length_map2, !length_map; lia).
  f_equal. apply list_as_map_seq with (d := 0).
  - rewrite !length_map2, !length_map. lia.
  - intros i Hi.
    rewrite (nth_map2 Rminus _ _ 0 0) by (rewrite length_map2, ?length_map; lia).
    rewrite (nth_map2 Rmult _ _ 0 0) by (rewrite ?length_map; lia).
    rewrite (nth_map2 Rmult _ _ 0 0) by (rewrite ?length_map; lia).
    rewrite (nth_map_lt Ropp u 0) by lia.
    rewrite (nth_map_lt (Rmult gamma) p 0) by lia.
    unfold Rminus. ring.
Qed.

Lemma ParticleTrapper_call_even (self : ParticleTrapper) (e delta : list R)
  (h : nat) :
  (0 < h)%nat ->
  length (pt_kx self) = (2 * h)%nat -> length (pt_wis self) = S h ->
  length e = (2 * h)%nat -> length delta = (2 * h)%nat ->
  exists dd,
    gradient delta (pt_kx self) = Some dd /\
    half_spectrum_filter (pt_wis self) e =
      Some (irfft (map2 Cscal (pt_wis self) (rfft e))) /\
    ParticleTrapper_call self e delta =
      Some (map (fun i =>
                   -3.757 * nth i dd 0
                   + nth i (map (fun x => 100 * Rabs x)
                                (irfft (map2 Cscal (pt_wis self) (rfft e)))) 0
                   - 0.001 * nth i delta 0)
                (seq 0 (2 * h))).
Proof.
  intros Hh Hkx Hw He Hd.
  destruct (half_spectrum_filter_same (pt_wis self) e h Hh He Hw) as [Ef Lf].
  destruct (gradient_total delta (pt_kx self)) as (dd & Eg & Ldd); [congruence|].
  exists dd. split; [assumption|]. split; [assumption|].
  rewrite ParticleTrapper_call_rhs.
  unfold trapping_rhs, trapping_forcing, lift2.
  rewrite Eg, Ef. cbn [bind option_map].
  rewrite broadcast_same by (rewrite !length_map; congruence). cbn [bind].
  rewrite broadcast_same by (rewrite length_map2, !length_map; lia).
  f_equal. apply list_as_map_seq with (d := 0).
  - rewrite !length_map2, !length_map. lia.
  - intros i Hi.
    rewrite (nth_map2 _ _ _ 0 0) by (rewrite ?length_map2, ?length_map; lia).
    rewrite (nth_map2 _ _ _ 0 0) by (rewrite ?length_map; lia).
    rewrite (nth_map_lt _ dd 0) by lia.
    rewrite (nth_map_lt _ delta 0) by lia.
    reflexivity.
Qed.

(** ** The Poisson solver *)

(** The mode [k = 0] of the returned field, for any [one_over_kx]. *)
Lemma PoissonSolver_mode0 (ook : list C) (dn : list R) :
  (0 < length dn)%nat -> length ook = length dn ->
  exists E,
    PoissonSolver_call (PoissonSolver_init ook) dn = Some E /\
    length E = length dn /\
    nth 0 (fft (map RtoC E)) C0 =
      RtoC (Cre (Cmul (Cmul Ci (nth 0 ook C0))
                      (RtoC (Rsum (fun m => nth m dn 0) (length dn))))).
Proof.
  intros HN HL.
  unfold PoissonSolver_call, PoissonSolver_init. cbn [one_over_kx].
  rewrite broadcast_same by (now rewrite length_map, length_fft, length_map).
  cbn [bind].
  set (Y := map2 Cmul (map (Cmul Ci) ook) (fft (map RtoC dn))).
  assert (LY : length Y = length dn).
  { unfold Y. rewrite length_map2, length_map, length_fft, length_map, HL.
    apply Nat.min_id. }
  assert (LE : length (map Cre (ifft Y)) = length dn)
    by (now rewrite length_map, length_ifft).
  eexists. split; [reflexivity|]. split; [exact LE|].
  rewrite fft_mode0 by (rewrite LE; exact HN).
  rewrite LE, <- LY, sum_Cre_ifft by (rewrite LY; exact HN).
  f_equal. f_equal. unfold Y.
  rewrite (nth_map2 Cmul _ _ C0 C0)
    by (rewrite ?length_map, ?length_fft, ?length_map; lia).
  rewrite (nth_map_lt (Cmul Ci) ook C0) by lia.
  rewrite fft_mode0 by exact HN. do 3 f_equal. symmetry. exact LY.
Qed.

(** ** Shapes on grids of odd length *)

Lemma broadcast_length_l {A B D : Type} (f : A -> B -> D) (a : list A)
  (b : list B) (c : list D) :
  broadcast f a b = Some c -> length a <> 1%nat -> length c = length a.
Proof.
  unfold broadcast. intros H Ha.
  destruct (Nat.eqb_spec (length a) (length b)) as [E|E].
  - injection H as <-. rewrite length_map2, E. apply Nat.min_id.
  - destruct a as [|x [|x' a]]; simpl in Ha; try congruence.
    + destruct b as [|y [|y' b]]; try discriminate.
      injection H as <-. reflexivity.
    + destruct b as [|y [|y' b]]; try discriminate.
      injection H as <-. simpl. now rewrite length_map.
Qed.

Lemma broadcast_length_r {A B D : Type} (f : A -> B -> D) (a : list A)
  (b : list B) (c : list D) :
  broadcast f a b = Some c -> length b <> 1%nat -> length c = length b.
Proof.
  intros H Hb. rewrite <- broadcast_flip in H.
  eapply broadcast_length_l; eauto.
Qed.

Lemma gradient_length_any (arr kx g : list R) :
  gradient arr kx = Some g -> length arr <> 1%nat -> length g = length arr.
Proof.
  unfold gradient. intros H Ha.
  destruct (broadcast Cmul _ _) as [z|] eqn:Ez; [|discriminate].
  injection H as <-. rewrite length_map, length_ifft.
  rewrite (broadcast_length_r _ _ _ _ Ez); rewrite length_fft, length_map; auto.
Qed.

Lemma length_rfft_odd (f : list R) (h : nat) :
  length f = S (2 * h) -> length (rfft f) = S h.
Proof.
  intros H. rewrite length_rfft by lia. rewrite H.
  replace (S (2 * h)) with (1 + h * 2)%nat by lia.
  rewrite Nat.div_add by lia. simpl. lia.
Qed.

(** The half-spectrum filter of an array of odd length [2 h + 1] returns
    one sample less than it was given. *)
Lemma filter_odd_length (w f : list R) (z : list C) (h : nat) :
  (0 < h)%nat -> length f = S (2 * h) ->
  broadcast Cscal w (rfft f) = Some z ->
  length (irfft z) = (2 * h)%nat.
Proof.
  intros Hh Hf Hz.
  rewrite length_irfft, (broadcast_length_r _ _ _ _ Hz);
    rewrite (length_rfft_odd f h Hf); lia.
Qed.

(** On a grid of odd length the restoring-force term has one sample less
    than [-u (du/dx)]: the call of the velocity stepper raises. *)
Lemma VelocityStepper_call_odd (self : VelocityStepper)
  (n u p q delta : list R) (h : nat) :
  (0 < h)%nat ->
  length n = S (2 * h) -> length u = S (2 * h) -> length p = S (2 * h) ->
  length q = S (2 * h) -> length delta = S (2 * h) ->
  VelocityStepper_call self n u p q delta = None.
Proof.
  intros Hh Hn Hu Hp Hq Hd. unfold VelocityStepper_call.
  destruct (gradient u (vs_kx self)) as [gu|] eqn:Eu; [|reflexivity].
  cbn [bind].
  destruct (broadcast Rmult (map Ropp u) gu) as [t1|] eqn:E1; [|reflexivity].
  cbn [bind].
  destruct (gradient p (vs_kx self)) as [gp|] eqn:Ep; [|reflexivity].
  cbn [bind].
  destruct (broadcast Rdiv gp n) as [g|] eqn:Eg; [|reflexivity].
  cbn [bind]. unfold restoring_force_term.
  destruct (broadcast Cscal (vs_wr_corr self) (rfft g)) as [z|] eqn:Ez;
    [|reflexivity].
  cbn [bind].
  assert (L1 : length t1 = S (2 * h)).
  { rewrite (broadcast_length_l _ _ _ _ E1); rewrite length_map; lia. }
  assert (Lg : length g = S (2 * h)).
  { rewrite (broadcast_length_r _ _ _ _ Eg); lia. }
  pose proof (filter_odd_length _ _ _ h Hh Lg Ez) as Lr.
  rewrite (broadcast_clash Rminus t1 (irfft z)) by lia.
  reflexivity.
Qed.

(** On a grid of odd length the forcing term has one sample less than
    the advection term: the call of the trapping stepper raises. *)
Lemma ParticleTrapper_call_odd (self : ParticleTrapper)
  (e delta : list R) (h : nat) :
  (0 < h)%nat ->
  length e = S (2 * h) -> length delta = S (2 * h) ->
  ParticleTrapper_call self e delta = None.
Proof.
  intros Hh He Hd. unfold ParticleTrapper_call.
  destruct (gradient delta (pt_kx self)) as [gd|] eqn:Eg; [|reflexivity].
  cbn [bind].
  rewrite (broadcast_flip Cscal (pt_wis self) (rfft e)).
  destruct (broadcast Cscal (pt_wis self) (rfft e)) as [z|] eqn:Ez;
    [|reflexivity].
  cbn [bind].
  pose proof (gradient_length_any _ _ _ Eg) as Lg.
  pose proof (filter_odd_length _ _ _ h Hh He Ez) as Lr.
  rewrite (broadcast_clash Rplus) by (rewrite !length_map; lia).
  reflexivity.
Qed.

(** * The properties of the specification *)

(** ** The velocity stepper *)

(** C1, as amended: the velocity stepper built from [kx], [kxr] and the
    options holds, in the enabled cases, the interpolated real-frequency
    table (left value 0, right value its last entry) divided by
    [sqrt (1 + 3 kxr^2)] and the interpolated imaginary-frequency table
    (left value 0, right value its last entry); on a grid of even length
    [2 h], with [kx] of that length, [kxr] of [h + 1] entries and a
    nonzero density, its call returns
    [-u (du/dx) - restoring_force ((d(p/m)/dx) / n) - q_over_m_times_e
     + landau_damping u / (1 + delta^2)] entry by entry. *)
Theorem VelocityStepper_formula (solver : R -> R -> R -> C)
  (kx kxr : list R) (physics : Physics) (n u p q delta : list R) (h : nat) :
  (0 < h)%nat ->
  length kx = (2 * h)%nat -> length kxr = S h ->
  length n = (2 * h)%nat -> length u = (2 * h)%nat -> length p = (2 * h)%nat ->
  length q = (2 * h)%nat -> length delta = (2 * h)%nat ->
  (forall x, In x n -> x <> 0) ->
  exists self du dp rf ld,
    VelocityStepper_init solver kx kxr physics = Some self /\
    vs_kx self = kx /\
    (kinetic_real_wepw physics = true ->
     vs_wr_corr self =
       map (fun k =>
              interp1 (linspace 0.2 0.4 128)
                      (map (fun k => Cre (solver 1 1 k)) (linspace 0.2 0.4 128))
                      0
                      (last (map (fun k => Cre (solver 1 1 k))
                                 (linspace 0.2 0.4 128)) 0)
                      k
              / sqrt (1 + 3 * k ^ 2)) kxr) /\
    (landau_damping physics = true ->
     vs_wis self =
       map (interp1 (linspace 0.2 0.4 128)
                    (map (fun k => Cim (solver 1 1 k)) (linspace 0.2 0.4 128))
                    0
                    (last (map (fun k => Cim (solver 1 1 k))
                               (linspace 0.2 0.4 128)) 0))
           kxr) /\
    (forall n' u' p' q' delta',
        VelocityStepper_call self n' u' p' q' delta' =
        velocity_rhs kx (vs_wr_corr self) (vs_wis self) n' u' p' q' delta') /\
    gradient u kx = Some du /\
    gradient p kx = Some dp /\
    half_spectrum_filter (vs_wr_corr self) (map2 Rdiv dp n) = Some rf /\
    half_spectrum_filter (vs_wis self) u = Some ld /\
    VelocityStepper_call self n u p q delta =
      Some (map (fun i => - nth i u 0 * nth i du 0 - nth i rf 0 - nth i q 0
                          + nth i ld 0 / (1 + nth i delta 0 ^ 2))
                (seq 0 (2 * h))).
Proof.
  intros Hh Hkx Hkxr Hn Hu Hp Hq Hd _.
  destruct (VelocityStepper_init solver kx kxr physics) as [self|] eqn:Ei;
    [|rewrite VelocityStepper_init_eq in Ei; discriminate].
  destruct (length_filter_arrays _ _ _ _ _ Ei) as (Ekx & Lwr & Lwi).
  destruct (VelocityStepper_call_even self n u p q delta h)
    as (du & dp & rf & ld & Eu & _ & Ep & _ & _ & Erf & _ & Eld & Ecall);
    try congruence.
  exists self, du, dp, rf, ld.
  rewrite Ekx in Eu, Ep.
  split; [reflexivity|]. split; [exact Ekx|].
  rewrite VelocityStepper_init_eq in Ei. injection Ei as <-.
  cbn [vs_wr_corr vs_wis] in *.
  split; [intros ->; reflexivity|]. split; [intros ->; reflexivity|].
  split; [intros; apply (VelocityStepper_call_rhs (mkVelocityStepper kx _ _))|].
  repeat (split; [assumption|]). exact Ecall.
Qed.

Lemma VelocityStepper_formula_witness :
  exists self out,
    VelocityStepper_init (fun _ _ k => (k, - k)) [0; -1] [0; 1]
                         (mkPhysics true true) = Some self /\
    VelocityStepper_call self [1; 1] [1; 2] [3; 4] [0; 0] [0; 1] = Some out.
Proof.
  assert (Hn : forall x : R, In x [1; 1] -> x <> 0)
    by (intros x [<-|[<-|[]]]; lra).
  destruct (VelocityStepper_formula (fun _ _ k => (k, - k)) [0; -1] [0; 1]
              (mkPhysics true true) [1; 1] [1; 2] [3; 4] [0; 0] [0; 1] 1
              (le_n 1) eq_refl eq_refl eq_refl eq_refl eq_refl eq_refl eq_refl Hn)
    as (self & du & dp & rf & ld & Ei & _ & _ & _ & _ & _ & _ & _ & _ & Ec).
  exists self. eexists. split; [exact Ei | exact Ec].
Defined.

(** C1, the statement for all same-length arrays fails: on a grid of three
    points, with a nonzero density, the stepper is built and its call
    raises, so that no array is returned. *)
Lemma VelocityStepper_formula_odd_grid :
  exists vs,
    VelocityStepper_init (fun _ _ k => (k, - k)) [0; 1; -1] [0; 1]
                         (mkPhysics true true) = Some vs /\
    VelocityStepper_call vs [1; 1; 1] [1; 2; 3] [3; 4; 5] [0; 0; 0] [0; 1; 0]
      = None /\
    forall out,
      VelocityStepper_call vs [1; 1; 1] [1; 2; 3] [3; 4; 5] [0; 0; 0] [0; 1; 0]
        <> Some out.
Proof.
  rewrite VelocityStepper_init_eq. eexists. split; [reflexivity|].
  match goal with
  | |- ?c = None /\ _ =>
      assert (E : c = None)
        by (apply (VelocityStepper_call_odd _ _ _ _ _ _ 1);
            solve [lia | reflexivity])
  end.
  split; [exact E|]. intros out. rewrite E. discriminate.
Qed.

(** ** The trapping stepper *)

(** C2, as amended: the trapping stepper is built without any option
    flag, its filter is the interpolation of the imaginary-frequency table
    onto [kxr] with both boundary values [0]; on a grid of even length
    [2 h], with [kx] of that length and [kxr] of [h + 1] entries, its call
    returns
    [-3.757 (d(delta)/dx) + 100 |irfft (rfft e * wis_trap)| - 0.001 delta]
    entry by entry, and the forcing term is nowhere negative. *)
Theorem ParticleTrapper_formula (solver : R -> R -> R -> C)
  (kxr kx e delta : list R) (h : nat) :
  (0 < h)%nat ->
  length kx = (2 * h)%nat -> length kxr = S h ->
  length e = (2 * h)%nat -> length delta = (2 * h)%nat ->
  exists self dd f,
    ParticleTrapper_init solver kxr kx = Some self /\
    pt_kx self = kx /\
    pt_wis self =
      map (interp1 (linspace 0.2 0.4 128)
                   (map (fun k => Cim (solver 1 1 k)) (linspace 0.2 0.4 128))
                   0 0) kxr /\
    (forall e' delta',
        ParticleTrapper_call self e' delta' =
        trapping_rhs kx (pt_wis self) e' delta') /\
    gradient delta kx = Some dd /\
    trapping_forcing (pt_wis self) e = Some f /\
    (forall i, 0 <= nth i f 0) /\
    ParticleTrapper_call self e delta =
      Some (map (fun i => -3.757 * nth i dd 0 + nth i f 0 - 0.001 * nth i delta 0)
                (seq 0 (2 * h))).
Proof.
  intros Hh Hkx Hkxr He Hd.
  rewrite ParticleTrapper_init_eq.
  set (self := mkParticleTrapper kxr _ kx).
  destruct (ParticleTrapper_call_even self e delta h) as (dd & Eg & Ef & Ec);
    cbn [pt_kx pt_wis self]; rewrite ?length_map; try assumption.
  exists self, dd. eexists.
  split; [reflexivity|]. split; [reflexivity|]. split; [reflexivity|].
  split; [intros e' delta'; apply ParticleTrapper_call_rhs|].
  split; [exact Eg|].
  split; [unfold trapping_forcing; rewrite Ef; reflexivity|].
  split; [intros i; apply forcing_nonneg|].
  exact Ec.
Qed.

Lemma ParticleTrapper_formula_witness :
  (0 < 1)%nat /\
  length [0; -1] = (2 * 1)%nat /\ length [0; 1] = 2%nat /\
  length [1; 2] = (2 * 1)%nat /\ length [3; 4] = (2 * 1)%nat /\
  (exists self dd f,
    ParticleTrapper_init (fun _ _ k => (k, - k)) [0; 1] [0; -1] = Some self /\
    pt_kx self = [0; -1] /\
    pt_wis self =
      map (interp1 (linspace 0.2 0.4 128)
                   (map (fun k => Cim ((fun _ _ k => (k, - k)) 1 1 k))
                        (linspace 0.2 0.4 128))
                   0 0) [0; 1] /\
    (forall e' delta',
        ParticleTrapper_call self e' delta' =
        trapping_rhs [0; -1] (pt_wis self) e' delta') /\
    gradient [3; 4] [0; -1] = Some dd /\
    trapping_forcing (pt_wis self) [1; 2] = Some f /\
    (forall i, 0 <= nth i f 0) /\
    ParticleTrapper_call self [1; 2] [3; 4] =
      Some (map (fun i => -3.757 * nth i dd 0 + nth i f 0 - 0.001 * nth i [3; 4] 0)
                (seq 0 (2 * 1)))).
Proof.
  split; [lia|]. do 4 (split; [reflexivity|]).
  apply (ParticleTrapper_formula (fun _ _ k => (k, - k)) [0; 1] [0; -1] [1; 2] [3; 4] 1);
    solve [lia | reflexivity].
Defined.

(** C2, the statement for all same-length arrays fails: on a grid of three
    points the stepper is built and its call raises, so that no array is
    returned. *)
Lemma ParticleTrapper_formula_odd_grid :
  exists pt,
    ParticleTrapper_init (fun _ _ k => (k, - k)) [0; 1] [0; 1; -1] = Some pt /\
    ParticleTrapper_call pt [1; 2; 3] [0; 1; 0] = None /\
    forall out, ParticleTrapper_call pt [1; 2; 3] [0; 1; 0] <> Some out.
Proof.
  rewrite ParticleTrapper_init_eq. eexists. split; [reflexivity|].
  match goal with
  | |- ?c = None /\ _ =>
      assert (E : c = None)
        by (apply (ParticleTrapper_call_odd _ _ _ 1);
            solve [lia | reflexivity])
  end.
  split; [exact E|]. intros out. rewrite E. discriminate.
Qed.

(** ** The velocity stepper without closure corrections *)

(** C3: with both options disabled the stepper holds the all-ones
    [wr_corr] and the all-zero [wis], and on an even grid with nonzero
    density its call returns the Euler right-hand side
    [-u (du/dx) - (d(p/m)/dx) / n - q_over_m_times_e] entry by entry. *)
Theorem VelocityStepper_reduces_to_Euler (solver : R -> R -> R -> C)
  (kx kxr n u p q delta : list R) (h : nat) :
  (0 < h)%nat ->
  length kx = (2 * h)%nat -> length kxr = S h ->
  length n = (2 * h)%nat -> length u = (2 * h)%nat -> length p = (2 * h)%nat ->
  length q = (2 * h)%nat -> length delta = (2 * h)%nat ->
  (forall x, In x n -> x <> 0) ->
  (forall kx' kxr',
      VelocityStepper_init solver kx' kxr' (mkPhysics false false) =
      Some (mkVelocityStepper kx' (zeros (length kxr')) (ones (length kxr')))) /\
  exists self du dp,
    VelocityStepper_init solver kx kxr (mkPhysics false false) = Some self /\
    vs_wr_corr self = ones (length kxr) /\
    vs_wis self = zeros (length kxr) /\
    gradient u kx = Some du /\
    gradient p kx = Some dp /\
    VelocityStepper_call self n u p q delta =
      Some (map (euler_rhs_at u du dp n q) (seq 0 (2 * h))).
Proof.
  intros Hh Hkx Hkxr Hn Hu Hp Hq Hd _.
  split; [intros kx' kxr'; apply VelocityStepper_init_eq|].
  rewrite VelocityStepper_init_eq. cbn [kinetic_real_wepw landau_damping].
  rewrite Hkxr.
  destruct (VelocityStepper_call_even
              (mkVelocityStepper kx (zeros (S h)) (ones (S h)))
              n u p q delta h)
    as (du & dp & rf & ld & Eu & Ldu & Ep & Ldp & Erf & _ & Eld & _ & Ec);
    cbn [vs_kx vs_wis vs_wr_corr]; rewrite ?length_zeros, ?length_ones;
    try assumption; try reflexivity.
  cbn [vs_kx vs_wis vs_wr_corr] in *.
  eexists. exists du, dp.
  split; [reflexivity|]. cbn [vs_wis vs_wr_corr].
  split; [reflexivity|]. split; [reflexivity|].
  split; [exact Eu|]. split; [exact Ep|].
  rewrite Ec. f_equal. apply map_seq_ext. intros i Hi.
  rewrite Erf, Eld.
  rewrite irfft_rfft_ones by (rewrite ?length_map2; lia).
  rewrite (irfft_zero _ (zero_filter _ _ (nth_zeros (S h)))).
  rewrite (nth_map2 Rdiv _ _ 0 0) by lia.
  unfold euler_rhs_at, Rdiv. ring.
Qed.

Lemma VelocityStepper_reduces_to_Euler_witness :
  exists self du dp,
    VelocityStepper_init (fun _ _ k => (k, - k)) [0; -1] [0; 1]
                         (mkPhysics false false) = Some self /\
    vs_wr_corr self = ones 2 /\
    vs_wis self = zeros 2 /\
    gradient [1; 2] [0; -1] = Some du /\
    gradient [3; 4] [0; -1] = Some dp /\
    VelocityStepper_call self [1; 1] [1; 2] [3; 4] [0; 0] [0; 1] =
      Some (map (euler_rhs_at [1; 2] du dp [1; 1] [0; 0]) (seq 0 2)).
Proof.
  assert (Hn : forall x : R, In x [1; 1] -> x <> 0)
    by (intros x [<-|[<-|[]]]; lra).
  exact (proj2
           (VelocityStepper_reduces_to_Euler (fun _ _ k => (k, - k))
              [0; -1] [0; 1] [1; 1] [1; 2] [3; 4] [0; 0] [0; 1] 1
              (le_n 1) eq_refl eq_refl eq_refl eq_refl eq_refl eq_refl eq_refl
              Hn)).
Defined.

(** ** The size of the frequency table *)

(** C4 (evaluation of the code where the claim fails): with [num = 129]
    the two frequency arrays have 129 entries and the wavenumber array
    128, so the three arrays do not have the same length; with
    [num = 127] the assignment at index 127 raises and nothing is
    returned. *)
Theorem get_complex_frequency_table_count_mismatch
  (solver : R -> R -> R -> C) :
  (exists wrs wis klds,
     get_complex_frequency_table solver 129 = Some (wrs, wis, klds) /\
     length wrs = 129%nat /\ length wis = 129%nat /\ length klds = 128%nat /\
     nth 128 wrs 1 = 0 /\ nth 128 wis 1 = 0) /\
  get_complex_frequency_table solver 127 = None.
Proof.
  split.
  - change 129%nat with (128 + 1)%nat at 1.
    rewrite get_complex_frequency_table_large.
    do 3 eexists. split; [reflexivity|].
    rewrite !length_app, !length_map, !length_linspace.
    split; [reflexivity|]. split; [reflexivity|]. split; [reflexivity|].
    split; rewrite app_nth2; rewrite length_map, length_linspace;
      solve [reflexivity | lia].
  - apply get_complex_frequency_table_small. lia.
Qed.

(** ** The mode [k = 0] of the Poisson solver *)

(** C5, as amended: the constructor stores [one_over_kx] as it is given,
    without a check; when the caller has set its entry for the mode
    [k = 0] to zero, the mode [k = 0] of the returned field is zero for
    every [dn] of the same length. *)
Theorem PoissonSolver_zero_mode (ook : list C) (dn : list R) :
  length ook = length dn -> nth 0 ook C0 = C0 ->
  one_over_kx (PoissonSolver_init ook) = ook /\
  exists E,
    PoissonSolver_call (PoissonSolver_init ook) dn = Some E /\
    length E = length dn /\
    nth 0 (fft (map RtoC E)) C0 = C0.
Proof.
  intros HL H0. split; [reflexivity|].
  destruct dn as [|d dn].
  - destruct ook; [|discriminate]. exists []. repeat split.
  - destruct (PoissonSolver_mode0 ook (d :: dn)) as (E & Ec & LE & Em);
      [simpl; lia|exact HL|].
    exists E. split; [exact Ec|]. split; [exact LE|].
    rewrite Em, H0. apply C_eq; simpl; ring.
Qed.

Lemma PoissonSolver_zero_mode_witness :
  length [C0; (0, 1)] = length [1; 2] /\ nth 0 [C0; (0, 1)] C0 = C0 /\
  one_over_kx (PoissonSolver_init [C0; (0, 1)]) = [C0; (0, 1)] /\
  (exists E,
    PoissonSolver_call (PoissonSolver_init [C0; (0, 1)]) [1; 2] = Some E /\
    length E = length [1; 2] /\
    nth 0 (fft (map RtoC E)) C0 = C0).
Proof.
  split; [reflexivity|]. split; [reflexivity|].
  apply (PoissonSolver_zero_mode [C0; (0, 1)] [1; 2]); reflexivity.
Defined.

(** C5, the statement that construction enforces a zero entry fails: the
    constructor accepts an array whose entry for the mode [k = 0] is
    not zero and keeps it; with that array the mode [k = 0] of the
    returned field is not zero. *)
Lemma PoissonSolver_init_unchecked :
  one_over_kx (PoissonSolver_init [(0, -1); (0, 1)]) = [(0, -1); (0, 1)] /\
  nth 0 (one_over_kx (PoissonSolver_init [(0, -1); (0, 1)])) C0 <> C0 /\
  (exists E,
    PoissonSolver_call (PoissonSolver_init [(0, -1); (0, 1)]) [1; 0] = Some E /\
    nth 0 (fft (map RtoC E)) C0 = RtoC 1 /\
    nth 0 (fft (map RtoC E)) C0 <> C0).
Proof.
  split; [reflexivity|]. split.
  - cbn. intros H. injection H as H. lra.
  - destruct (PoissonSolver_mode0 [(0, -1); (0, 1)] [1; 0]) as (E & Ec & _ & Em);
      [simpl; lia|reflexivity|].
    assert (E1 : nth 0 (fft (map RtoC E)) C0 = RtoC 1).
    { rewrite Em. apply C_eq; simpl; ring. }
    exists E. split; [exact Ec|]. split; [exact E1|].
    rewrite E1. intros H. injection H as H. lra.
Qed.

(** ** The drive field *)

(** C6: for every pulse descriptor with nonzero rise scales and every time
    [t], the driver returns, at each grid point [x], the product of the
    temporal window at [t], the spatial window at [x], [|k0|], [a0] and
    [sin (k0 x - (w0 + dw0) t)]; the windows are the double-tanh windows of
    the pulse, with no case distinction on the widths.  (At a rise scale
    of zero the source divides by zero in floating point, which the
    division of [R] does not represent.) *)
Theorem Driver_call_formula (xs : list R) (p : Pulse) (t : R) :
  t_r p <> 0 -> x_r p <> 0 ->
  Driver_call (Driver_init xs) p t =
  Some (map (fun x =>
               double_tanh_window (t_c p) (t_w p) (t_r p) t
               * double_tanh_window (x_c p) (x_w p) (x_r p) x
               * Rabs (k0 p) * a0 p
               * sin (k0 p * x - (w0 p + dw0 p) * t))
            xs).
Proof.
  intros _ _. unfold Driver_call, Driver_init. simpl xax.
  rewrite broadcast_same by (now rewrite !length_map).
  f_equal. rewrite !map_map.
  induction xs as [|x xs IH]; simpl; [reflexivity|].
  f_equal; [|exact IH].
  unfold get_envelope, double_tanh_window.
  replace (t_w p * 0.5) with (t_w p / 2) by lra.
  replace (x_w p * 0.5) with (x_w p / 2) by lra.
  reflexivity.
Qed.

Lemma Driver_call_formula_witness :
  Driver_call (Driver_init [0; 1; 2]) (mkPulse 1 2 0 3 5 0 2 1 4 1) 3 =
  Some (map (fun x =>
               double_tanh_window 5 0 2 3
               * double_tanh_window 1 4 1 x
               * Rabs 1 * 3
               * sin (1 * x - (2 + 0) * 3))
            [0; 1; 2]).
Proof.
  apply (Driver_call_formula [0; 1; 2] (mkPulse 1 2 0 3 5 0 2 1 4 1) 3);
    cbn; lra.
Defined.

(** ** The energy step *)

(** C7: the energy stepper returns [-u (d(p/m)/dx) - gamma (p/m) (du/dx)]
    pointwise, both derivatives taken by [gradient]; the result does not
    depend on the arguments [n] and [q_over_m_times_e]. *)
Theorem EnergyStepper_call_formula (kx : list R) (gamma : R) (n u p q : list R) :
  length kx = length u -> length p = length u ->
  exists du dp,
    gradient u kx = Some du /\
    gradient p kx = Some dp /\
    EnergyStepper_call (EnergyStepper_init kx gamma) n u p q =
      Some (map (fun i => - nth i u 0 * nth i dp 0
                          - gamma * nth i p 0 * nth i du 0)
                (seq 0 (length u))) /\
    forall n' q',
      EnergyStepper_call (EnergyStepper_init kx gamma) n' u p q' =
      EnergyStepper_call (EnergyStepper_init kx gamma) n u p q.
Proof.
  intros Hk Hp.
  destruct (EnergyStepper_call_pointwise kx gamma n u p q Hk Hp)
    as (du & dp & Eu & Ep & Ec).
  exists du, dp. repeat split; auto.
Qed.

Lemma EnergyStepper_call_formula_witness :
  length [0; 1] = length [1; 2] /\ length [3; 4] = length [1; 2] /\
  (exists du dp,
    gradient [1; 2] [0; 1] = Some du /\
    gradient [3; 4] [0; 1] = Some dp /\
    EnergyStepper_call (EnergyStepper_init [0; 1] 3) [1; 1] [1; 2] [3; 4] [0; 0] =
      Some (map (fun i => - nth i [1; 2] 0 * nth i dp 0
                          - 3 * nth i [3; 4] 0 * nth i du 0)
                (seq 0 (length [1; 2]))) /\
    forall n' q',
      EnergyStepper_call (EnergyStepper_init [0; 1] 3) n' [1; 2] [3; 4] q' =
      EnergyStepper_call (EnergyStepper_init [0; 1] 3) [1; 1] [1; 2] [3; 4] [0; 0]).
Proof.
  split; [reflexivity|]. split; [reflexivity|].
  apply (EnergyStepper_call_formula [0; 1] 3 [1; 1] [1; 2] [3; 4] [0; 0]); reflexivity.
Defined.

(** ** The equilibrium snapshot *)

(** C8, as amended: on a grid of even length [2 h] whose wavenumber array
    has [kx_0 = 0], with both options disabled, the snapshot [n = 1],
    [u = 0], [p_over_m = 1], [q_over_m_times_e = 0], [delta = 0], [e = 0]
    makes the four steppers return the zero array. *)
Theorem equilibrium_is_stationary (solver : R -> R -> R -> C)
  (kx kxr : list R) (gamma : R) (h : nat) :
  (0 < h)%nat ->
  length kx = (2 * h)%nat -> nth 0 kx 0 = 0 -> length kxr = S h ->
  exists vs pt,
    VelocityStepper_init solver kx kxr (mkPhysics false false) = Some vs /\
    ParticleTrapper_init solver kxr kx = Some pt /\
    DensityStepper_call (DensityStepper_init kx) (ones (2 * h)) (zeros (2 * h))
      = Some (zeros (2 * h)) /\
    VelocityStepper_call vs (ones (2 * h)) (zeros (2 * h)) (ones (2 * h))
                         (zeros (2 * h)) (zeros (2 * h))
      = Some (zeros (2 * h)) /\
    EnergyStepper_call (EnergyStepper_init kx gamma) (ones (2 * h))
                       (zeros (2 * h)) (ones (2 * h)) (zeros (2 * h))
      = Some (zeros (2 * h)) /\
    ParticleTrapper_call pt (zeros (2 * h)) (zeros (2 * h))
      = Some (zeros (2 * h)).
Proof.
  intros Hh Hkx H0 Hkxr.
  set (N := (2 * h)%nat) in *.
  rewrite VelocityStepper_init_eq, ParticleTrapper_init_eq.
  cbn [kinetic_real_wepw landau_damping].
  do 2 eexists. split; [reflexivity|]. split; [reflexivity|].
  assert (Lz : length (zeros N) = N) by apply length_zeros.
  assert (Lo : length (ones N) = N) by apply length_ones.
  split; [|split; [|split]].
  - destruct (DensityStepper_call_pointwise kx (ones N) (zeros N))
      as (dn & du & En & Eu & ->); try congruence.
    f_equal. rewrite Lo. apply all_zero_map. intros i Hi.
    rewrite (gradient_zero _ _ _ (eq_trans Hkx (eq_sym Lz)) (nth_zeros N) Eu).
    rewrite nth_zeros. ring.
  - destruct (VelocityStepper_call_even
                (mkVelocityStepper kx (zeros (length kxr)) (ones (length kxr)))
                (ones N) (zeros N) (ones N) (zeros N) (zeros N) h)
      as (du & dp & rf & ld & Eu & Ldu & Ep & Ldp & -> & _ & -> & _ & ->);
      cbn [vs_kx vs_wis vs_wr_corr];
      rewrite ?length_zeros, ?length_ones; try assumption; try reflexivity.
    f_equal. apply all_zero_map. intros i Hi.
    cbn [vs_kx vs_wis vs_wr_corr] in *.
    assert (Zdp : forall m, nth m dp 0 = 0)
      by (apply (gradient_const 1 kx dp N Hkx H0); exact Ep).
    assert (Zg : forall m, nth m (map2 Rdiv dp (ones N)) 0 = 0).
    { intros m. destruct (Nat.lt_ge_cases m N) as [Hm|Hm].
      - rewrite (nth_map2 Rdiv _ _ 0 0) by (fold N in Ldp; lia).
        rewrite Zdp. unfold Rdiv. ring.
      - apply nth_overflow. rewrite length_map2. fold N in Ldp. lia. }
    rewrite (filter_of_zero _ _ Zg), (filter_of_zero _ _ (nth_zeros N)).
    rewrite nth_zeros. unfold Rdiv. ring.
  - destruct (EnergyStepper_call_pointwise kx gamma (ones N) (zeros N) (ones N)
                (zeros N)) as (du & dp & Eu & Ep & ->); try congruence.
    f_equal. rewrite Lz. apply all_zero_map. intros i Hi.
    rewrite (gradient_zero _ _ _ (eq_trans Hkx (eq_sym Lz)) (nth_zeros N) Eu).
    rewrite nth_zeros. ring.
  - destruct (ParticleTrapper_call_even
                (mkParticleTrapper kxr
                   (map (interp1 (linspace 0.2 0.4 128)
                           (map (fun k => Cim (solver 1 1 k))
                                (linspace 0.2 0.4 128)) 0 0) kxr) kx)
                (zeros N) (zeros N) h)
      as (dd & Ed & _ & ->);
      cbn [pt_kx pt_wis]; rewrite ?length_map; try assumption.
    cbn [pt_kx pt_wis] in *.
    f_equal. apply all_zero_map. intros i Hi.
    rewrite (gradient_zero _ _ _ (eq_trans Hkx (eq_sym Lz)) (nth_zeros N) Ed).
    match goal with
    | |- context [irfft (map2 Cscal ?w (rfft (zeros N)))] =>
        destruct (half_spectrum_filter_same w (zeros N) h Hh Lz) as [_ Lf];
        [now rewrite length_map|]
    end.
    rewrite (nth_map_lt _ _ 0) by (rewrite Lf; exact Hi).
    rewrite (filter_of_zero _ _ (nth_zeros N)).
    rewrite nth_zeros, Rabs_R0. ring.
Qed.

Lemma equilibrium_is_stationary_witness :
  (0 < 1)%nat /\ length [0; -1] = (2 * 1)%nat /\ nth 0 [0; -1] 0 = 0 /\
  length [0; 1] = 2%nat /\
  (exists vs pt,
    VelocityStepper_init (fun _ _ k => (k, - k)) [0; -1] [0; 1]
                         (mkPhysics false false) = Some vs /\
    ParticleTrapper_init (fun _ _ k => (k, - k)) [0; 1] [0; -1] = Some pt /\
    DensityStepper_call (DensityStepper_init [0; -1]) (ones (2 * 1)) (zeros (2 * 1))
      = Some (zeros (2 * 1)) /\
    VelocityStepper_call vs (ones (2 * 1)) (zeros (2 * 1)) (ones (2 * 1))
                         (zeros (2 * 1)) (zeros (2 * 1))
      = Some (zeros (2 * 1)) /\
    EnergyStepper_call (EnergyStepper_init [0; -1] 3) (ones (2 * 1))
                       (zeros (2 * 1)) (ones (2 * 1)) (zeros (2 * 1))
      = Some (zeros (2 * 1)) /\
    ParticleTrapper_call pt (zeros (2 * 1)) (zeros (2 * 1))
      = Some (zeros (2 * 1))).
Proof.
  split; [lia|]. do 3 (split; [reflexivity|]).
  apply (equilibrium_is_stationary (fun _ _ k => (k, - k)) [0; -1] [0; 1] 3 1);
    solve [lia | reflexivity].
Defined.

(** C8, the statement without the evenness of the grid fails: on a grid of
    three points the half-spectrum of the pressure force has
    two entries and its inverse transform two samples, which do not
    combine with the three samples of [-u (du/dx)]: the velocity stepper
    raises instead of returning the zero array. *)
Lemma equilibrium_odd_grid_raises :
  VelocityStepper_init (fun _ _ k => (k, - k)) [0; 1; -1] [0; 1]
                       (mkPhysics false false)
    = Some (mkVelocityStepper [0; 1; -1] (zeros 2) (ones 2)) /\
  VelocityStepper_call (mkVelocityStepper [0; 1; -1] (zeros 2) (ones 2))
                       (ones 3) (zeros 3) (ones 3) (zeros 3) (zeros 3)
    = None /\
  VelocityStepper_call (mkVelocityStepper [0; 1; -1] (zeros 2) (ones 2))
                       (ones 3) (zeros 3) (ones 3) (zeros 3) (zeros 3)
    <> Some (zeros 3).
Proof.
  assert (E : VelocityStepper_call
                (mkVelocityStepper [0; 1; -1] (zeros 2) (ones 2))
                (ones 3) (zeros 3) (ones 3) (zeros 3) (zeros 3) = None).
  { unfold VelocityStepper_call. cbn [vs_kx vs_wis vs_wr_corr].
    destruct (gradient_total (zeros 3) [0; 1; -1]) as (gu & Eu & Lu);
      [reflexivity|].
    destruct (gradient_total (ones 3) [0; 1; -1]) as (gp & Ep & Lp);
      [reflexivity|].
    rewrite length_zeros in Lu. rewrite length_ones in Lp.
    rewrite Eu. cbn [bind].
    rewrite (broadcast_same Rmult)
      by (rewrite length_map, length_zeros; lia).
    cbn [bind]. rewrite Ep. cbn [bind].
    rewrite (broadcast_same Rdiv) by (rewrite length_ones; lia).
    cbn [bind]. unfold restoring_force_term. cbn [vs_wr_corr].
    assert (Lg : length (map2 Rdiv gp (ones 3)) = 3%nat)
      by (rewrite length_map2, length_ones, Lp; reflexivity).
    assert (Lr : length (rfft (map2 Rdiv gp (ones 3))) = 2%nat)
      by (rewrite length_rfft, Lg by (rewrite Lg; lia); reflexivity).
    rewrite (broadcast_same Cscal) by (rewrite length_ones, Lr; reflexivity).
    cbn [bind].
    rewrite (broadcast_clash Rminus); [reflexivity| | |];
      rewrite ?length_irfft, ?length_map2, ?length_map, ?length_zeros,
        ?length_ones, ?Lr, ?Lu; simpl; lia. }
  split; [apply VelocityStepper_init_eq|].
  split; [exact E|]. rewrite E. discriminate.
Qed.

(** ** Linearity of the spectral differentiator *)

(** C9: [gradient] is linear: for scalars [a], [b] and arrays [f], [g], [k]
    of one length, [gradient (a f + b g) k = a gradient f k + b gradient g k]. *)
Theorem gradient_linear (a b : R) (f g k : list R) :
  length f = length k -> length g = length k ->
  exists gf gg,
    gradient f k = Some gf /\
    gradient g k = Some gg /\
    gradient (map2 Rplus (map (Rmult a) f) (map (Rmult b) g)) k =
      Some (map2 Rplus (map (Rmult a) gf) (map (Rmult b) gg)).
Proof.
  intros Hf Hg.
  rewrite !gradient_same
    by (rewrite ?length_map2, ?length_map; lia).
  do 2 eexists. split; [reflexivity|]. split; [reflexivity|].
  f_equal.
  rewrite RtoC_lin by congruence.
  rewrite fft_lin by (rewrite !length_map; congruence).
  rewrite mul_lin by (rewrite length_fft, !length_map; congruence).
  rewrite ifft_lin by (rewrite !length_map2, !length_fft, !length_map; lia).
  apply Cre_lin.
  rewrite !length_ifft, !length_map2, !length_fft, !length_map. lia.
Qed.

Lemma gradient_linear_witness :
  length [1; 2] = length [0; -1] /\ length [3; 5] = length [0; -1] /\
  (exists gf gg,
    gradient [1; 2] [0; -1] = Some gf /\
    gradient [3; 5] [0; -1] = Some gg /\
    gradient (map2 Rplus (map (Rmult 2) [1; 2]) (map (Rmult 7) [3; 5])) [0; -1] =
      Some (map2 Rplus (map (Rmult 2) gf) (map (Rmult 7) gg))).
Proof.
  split; [reflexivity|]. split; [reflexivity|].
  apply (gradient_linear 2 7 [1; 2] [3; 5] [0; -1]); reflexivity.
Defined.

(** ** The Ampere step *)

(** C10: for two arrays [n] and [u] of the same length, [StepAmpere()(n, u)]
    returns an array of that length whose entries are the products
    [n_i * u_i]. *)
Theorem StepAmpere_call_product (n u : list R) :
  length n = length u ->
  exists out,
    StepAmpere_call n u = Some out /\
    length out = length n /\
    forall i, (i < length n)%nat -> nth i out 0 = nth i n 0 * nth i u 0.
Proof.
  intros H. exists (map2 Rmult n u). split; [|split].
  - unfold StepAmpere_call. now apply broadcast_same.
  - rewrite length_map2, H. apply Nat.min_id.
  - intros i Hi. apply nth_map2; lia.
Qed.

Lemma StepAmpere_call_product_witness :
  length [2; 3] = length [5; 7] /\
  (exists out,
    StepAmpere_call [2; 3] [5; 7] = Some out /\
    length out = length [2; 3] /\
    forall i, (i < length [2; 3])%nat ->
              nth i out 0 = nth i [2; 3] 0 * nth i [5; 7] 0).
Proof.
  split; [reflexivity | apply (StepAmpere_call_product [2; 3] [5; 7]); reflexivity].
Defined.

(** * Further properties of the source *)

(** ** The steppers on grids of odd length *)

(** X1: on a grid of odd length [2 h + 1 >= 3] the velocity stepper raises
    for every stored filter and all arguments of the grid's length. *)
Theorem VelocityStepper_call_odd_raises (self : VelocityStepper)
  (n u p q delta : list R) (h : nat) :
  (0 < h)%nat ->
  length n = S (2 * h) -> length u = S (2 * h) -> length p = S (2 * h) ->
  length q = S (2 * h) -> length delta = S (2 * h) ->
  VelocityStepper_call self n u p q delta = None.
Proof. apply VelocityStepper_call_odd. Qed.

Lemma VelocityStepper_call_odd_raises_witness :
  VelocityStepper_call (mkVelocityStepper [0; 1; -1] [0; 0] [1; 1])
                       [1; 1; 1] [1; 2; 3] [1; 1; 1] [0; 0; 0] [0; 0; 0]
  = None.
Proof.
  apply (VelocityStepper_call_odd_raises _ _ _ _ _ _ 1); solve [lia|reflexivity].
Defined.

(** X2: on a grid of odd length [2 h + 1 >= 3] the trapping stepper raises
    for every stored filter and all arguments of the grid's length. *)
Theorem ParticleTrapper_call_odd_raises (self : ParticleTrapper)
  (e delta : list R) (h : nat) :
  (0 < h)%nat ->
  length e = S (2 * h) -> length delta = S (2 * h) ->
  ParticleTrapper_call self e delta = None.
Proof. apply ParticleTrapper_call_odd. Qed.

Lemma ParticleTrapper_call_odd_raises_witness :
  ParticleTrapper_call (mkParticleTrapper [0; 1] [0; 0] [0; 1; -1])
                       [1; 2; 3] [0; 0; 0]
  = None.
Proof.
  apply (ParticleTrapper_call_odd_raises _ _ _ 1); solve [lia|reflexivity].
Defined.

(** ** The density and energy steps *)

(** X3: for [n], [u] and [kx] of one length (even or odd) the density
    stepper returns [-u (dn/dx) - n (du/dx)] entry by entry, both
    derivatives taken by [gradient]. *)
Theorem DensityStepper_call_formula (kx n u : list R) :
  length kx = length n -> length u = length n ->
  exists dn du,
    gradient n kx = Some dn /\ gradient u kx = Some du /\
    length dn = length n /\ length du = length n /\
    DensityStepper_call (DensityStepper_init kx) n u =
      Some (map (fun i => - nth i u 0 * nth i dn 0 - nth i n 0 * nth i du 0)
                (seq 0 (length n))).
Proof.
  intros Hk Hu.
  destruct (DensityStepper_call_pointwise kx n u Hk Hu) as (dn & du & En & Eu & Ec).
  exists dn, du. repeat split; auto.
  - exact (gradient_length n kx dn Hk En).
  - rewrite <- Hu. exact (gradient_length u kx du (eq_trans Hk (eq_sym Hu)) Eu).
Qed.

Lemma DensityStepper_call_formula_witness :
  exists dn du,
    gradient [1; 2; 4] [0; 1; -1] = Some dn /\
    gradient [3; 5; 6] [0; 1; -1] = Some du /\
    length dn = 3%nat /\ length du = 3%nat /\
    DensityStepper_call (DensityStepper_init [0; 1; -1]) [1; 2; 4] [3; 5; 6] =
      Some (map (fun i => - nth i [3; 5; 6] 0 * nth i dn 0
                          - nth i [1; 2; 4] 0 * nth i du 0)
                (seq 0 3)).
Proof.
  exact (DensityStepper_call_formula [0; 1; -1] [1; 2; 4] [3; 5; 6]
           eq_refl eq_refl).
Defined.

(** X4: a fluid at rest keeps its density: with [u = 0] everywhere the
    density stepper returns the zero array for every density [n]. *)
Theorem DensityStepper_call_at_rest (kx n : list R) :
  length kx = length n ->
  DensityStepper_call (DensityStepper_init kx) n (zeros (length n))
  = Some (zeros (length n)).
Proof.
  intros Hk.
  destruct (DensityStepper_call_pointwise kx n (zeros (length n)))
    as (dn & du & En & Eu & ->); [assumption|apply length_zeros|].
  f_equal. apply all_zero_map. intros i Hi.
  rewrite (gradient_zero _ _ _ (eq_trans Hk (eq_sym (length_zeros _)))
             (nth_zeros _) Eu).
  rewrite nth_zeros. ring.
Qed.

Lemma DensityStepper_call_at_rest_witness :
  DensityStepper_call (DensityStepper_init [0; 1; -1]) [1; 2; 4]
                      (zeros (length [1; 2; 4]))
  = Some (zeros (length [1; 2; 4])).
Proof.
  exact (DensityStepper_call_at_rest [0; 1; -1] [1; 2; 4] eq_refl).
Defined.

(** X5: a fluid at rest keeps its pressure: with [u = 0] everywhere the
    energy stepper returns the zero array for every [p_over_m], [gamma],
    [n] and [q_over_m_times_e]. *)
Theorem EnergyStepper_call_at_rest (kx : list R) (gamma : R) (n p q : list R) :
  length kx = length p ->
  EnergyStepper_call (EnergyStepper_init kx gamma) n (zeros (length p)) p q
  = Some (zeros (length p)).
Proof.
  intros Hk.
  destruct (EnergyStepper_call_pointwise kx gamma n (zeros (length p)) p q)
    as (du & dp & Eu & Ep & ->);
    rewrite ?length_zeros; try congruence.
  f_equal. apply all_zero_map. intros i Hi.
  rewrite (gradient_zero _ _ _ (eq_trans Hk (eq_sym (length_zeros _)))
             (nth_zeros _) Eu).
  rewrite nth_zeros. ring.
Qed.

Lemma EnergyStepper_call_at_rest_witness :
  EnergyStepper_call (EnergyStepper_init [0; 1; -1] 3) [] (zeros (length [1; 2; 4]))
                     [1; 2; 4] []
  = Some (zeros (length [1; 2; 4])).
Proof.
  exact (EnergyStepper_call_at_rest [0; 1; -1] 3 [] [1; 2; 4] [] eq_refl).
Defined.

(** ** The Ampere step on other shapes *)

(** X6: [StepAmpere()(n, u)] raises when the two lengths differ and neither
    is one. *)
Theorem StepAmpere_call_shape_error (n u : list R) :
  length n <> length u -> length n <> 1%nat -> length u <> 1%nat ->
  StepAmpere_call n u = None.
Proof. intros. unfold StepAmpere_call. now apply broadcast_clash. Qed.

Lemma StepAmpere_call_shape_error_witness :
  StepAmpere_call [1; 2] [1; 2; 3] = None.
Proof.
  apply (StepAmpere_call_shape_error [1; 2] [1; 2; 3]); simpl; lia.
Defined.

(** X7: [StepAmpere()(n, u)] and [StepAmpere()(u, n)] agree on all
    arguments, the ones that raise included. *)
Theorem StepAmpere_call_comm (n u : list R) :
  StepAmpere_call n u = StepAmpere_call u n.
Proof.
  unfold StepAmpere_call. rewrite <- (broadcast_flip Rmult u n).
  unfold broadcast. destruct (Nat.eqb _ _).
  - f_equal. revert u. induction n as [|x n IH]; intros [|y u]; simpl; auto.
    f_equal; [apply Rmult_comm|apply IH].
  - destruct n as [|x [|x' n]], u as [|y [|y' u]]; try reflexivity;
      f_equal; apply map_ext; intros; apply Rmult_comm.
Qed.

(** ** The frequency table for other counts *)

(** X8: with a count below 128 the table builder raises: the buffers have
    [num] entries and the loop assigns at the indices [0 .. 127]. *)
Theorem get_complex_frequency_table_raises (solver : R -> R -> R -> C)
  (num : nat) :
  (num < 128)%nat -> get_complex_frequency_table solver num = None.
Proof. apply get_complex_frequency_table_small. Qed.

Lemma get_complex_frequency_table_raises_witness :
  get_complex_frequency_table (fun _ _ k => (k, - k)) 5 = None.
Proof.
  apply (get_complex_frequency_table_raises (fun _ _ k => (k, - k)) 5). lia.
Defined.

(** X9: with a count of at least 128 the table builder returns frequency
    arrays of [num] entries: entry [i < 128] holds the real, respectively
    imaginary, part of the root at the [i]-th wavenumber, and the entries
    from 128 on are left at zero. *)
Theorem get_complex_frequency_table_padded (solver : R -> R -> R -> C)
  (num : nat) :
  (128 <= num)%nat ->
  exists wrs wis klds,
    get_complex_frequency_table solver num = Some (wrs, wis, klds) /\
    length wrs = num /\ length wis = num /\ length klds = 128%nat /\
    (forall i, (i < 128)%nat ->
       nth i wrs 0 = Cre (solver 1 1 (nth i klds 0)) /\
       nth i wis 0 = Cim (solver 1 1 (nth i klds 0))) /\
    (forall i, (128 <= i)%nat -> nth i wrs 0 = 0 /\ nth i wis 0 = 0).
Proof.
  intros Hn.
  pose proof (get_complex_frequency_table_large solver (num - 128)) as E.
  replace (128 + (num - 128))%nat with num in E by lia.
  rewrite E.
  set (klds := linspace 0.2 0.4 128).
  assert (HL : length klds = 128%nat) by apply length_linspace.
  do 3 eexists. split; [reflexivity|].
  rewrite !length_app, !length_map, HL, !length_zeros.
  split; [lia|]. split; [lia|]. split; [reflexivity|]. split.
  - intros i Hi.
    rewrite !app_nth1 by (rewrite length_map; lia).
    assert (Hi' : (i < length klds)%nat) by lia.
    split.
    + exact (nth_map_lt (fun k => Cre (solver 1 1 k)) klds 0 0 i Hi').
    + exact (nth_map_lt (fun k => Cim (solver 1 1 k)) klds 0 0 i Hi').
  - intros i Hi.
    rewrite !app_nth2 by (rewrite length_map; lia).
    split; apply nth_zeros.
Qed.

Lemma get_complex_frequency_table_padded_witness :
  exists wrs wis klds,
    get_complex_frequency_table (fun _ _ k => (k, - k)) 130
      = Some (wrs, wis, klds) /\
    length wrs = 130%nat /\ length wis = 130%nat /\ length klds = 128%nat /\
    (forall i, (i < 128)%nat ->
       nth i wrs 0 = Cre ((fun _ _ k => (k, - k)) 1 1 (nth i klds 0)) /\
       nth i wis 0 = Cim ((fun _ _ k => (k, - k)) 1 1 (nth i klds 0))) /\
    (forall i, (128 <= i)%nat -> nth i wrs 0 = 0 /\ nth i wis 0 = 0).
Proof.
  apply (get_complex_frequency_table_padded (fun _ _ k => (k, - k)) 130). lia.
Defined.

(** X10: whenever the table builder returns, its wavenumber array has 128
    entries, starts at 0.2, ends at 0.4, has the constant step
    [0.2 / 127] and increases strictly, whatever the count and the
    solver. *)
Theorem get_complex_frequency_table_grid (solver : R -> R -> R -> C)
  (num : nat) (wrs wis klds : list R) :
  get_complex_frequency_table solver num = Some (wrs, wis, klds) ->
  length klds = 128%nat /\
  nth 0 klds 0 = 0.2 /\ nth 127 klds 0 = 0.4 /\
  (forall i, (i < 128)%nat -> nth i klds 0 = 0.2 + INR i * (0.2 / 127)) /\
  (forall i j, (i < j < 128)%nat -> nth i klds 0 < nth j klds 0).
Proof.
  unfold get_complex_frequency_table. intros H.
  destruct (fold_left _ _ _) as [s|]; [|discriminate].
  cbn [bind] in H. injection H as _ _ <-.
  split; [apply length_linspace|].
  split; [apply klds_first|]. split; [apply klds_last|].
  split; [|apply klds_increasing].
  intros i Hi. rewrite nth_linspace by assumption. rewrite INR_127. lra.
Qed.

Lemma get_complex_frequency_table_grid_witness :
  exists wrs wis klds,
    get_complex_frequency_table (fun _ _ k => (k, - k)) 128
      = Some (wrs, wis, klds) /\
    length klds = 128%nat /\
    nth 0 klds 0 = 0.2 /\ nth 127 klds 0 = 0.4 /\
    (forall i, (i < 128)%nat -> nth i klds 0 = 0.2 + INR i * (0.2 / 127)) /\
    (forall i j, (i < j < 128)%nat -> nth i klds 0 < nth j klds 0).
Proof.
  do 3 eexists. split; [apply get_complex_frequency_table_128|].
  apply (get_complex_frequency_table_grid (fun _ _ k => (k, - k)) 128 _ _ _
           (get_complex_frequency_table_128 (fun _ _ k => (k, - k)))).
Defined.

(** ** The hyperbolic tangent *)

Lemma tanh_exp (x : R) :
  tanh x = (exp x - exp (- x)) / (exp x + exp (- x)).
Proof.
  pose proof (exp_pos x). pose proof (exp_pos (- x)).
  unfold tanh, sinh, cosh. field. lra.
Qed.

Lemma tanh_bounds (x : R) : -1 < tanh x < 1.
Proof.
  pose proof (exp_pos x) as Ha. pose proof (exp_pos (- x)) as Hb.
  rewrite tanh_exp. split.
  - apply Rmult_lt_reg_r with (exp x + exp (- x)); [lra|].
    unfold Rdiv. rewrite Rmult_assoc, Rinv_l by lra. lra.
  - apply Rmult_lt_reg_r with (exp x + exp (- x)); [lra|].
    unfold Rdiv. rewrite Rmult_assoc, Rinv_l by lra. lra.
Qed.

Lemma tanh_odd (x : R) : tanh (- x) = - tanh x.
Proof.
  pose proof (exp_pos x). pose proof (exp_pos (- x)).
  rewrite !tanh_exp, Ropp_involutive. field. lra.
Qed.

Lemma exp_le (x y : R) : x <= y -> exp x <= exp y.
Proof.
  intros [H | ->]; [left; now apply exp_increasing|right; reflexivity].
Qed.

Lemma tanh_le (x y : R) : x <= y -> tanh x <= tanh y.
Proof.
  intros Hxy.
  pose proof (exp_pos x) as Hax. pose proof (exp_pos (- x)) as Hbx.
  pose proof (exp_pos y) as Hay. pose proof (exp_pos (- y)) as Hby.
  pose proof (exp_le x y Hxy) as Ha.
  assert (Hb : exp (- y) <= exp (- x)) by (apply exp_le; lra).
  rewrite !tanh_exp.
  apply Rmult_le_reg_r with ((exp x + exp (- x)) * (exp y + exp (- y)));
    [nra|].
  replace ((exp x - exp (- x)) / (exp x + exp (- x))
           * ((exp x + exp (- x)) * (exp y + exp (- y))))
    with ((exp x - exp (- x)) * (exp y + exp (- y))) by (field; lra).
  replace ((exp y - exp (- y)) / (exp y + exp (- y))
           * ((exp x + exp (- x)) * (exp y + exp (- y))))
    with ((exp y - exp (- y)) * (exp x + exp (- x))) by (field; lra).
  nra.
Qed.

(** ** The drive window *)

Lemma get_envelope_bounds (p_wL p_wR p_L p_R ax : R) :
  -1 < get_envelope p_wL p_wR p_L p_R ax < 1.
Proof.
  unfold get_envelope.
  pose proof (tanh_bounds ((ax - p_L) / p_wL)).
  pose proof (tanh_bounds ((ax - p_R) / p_wR)). lra.
Qed.

(** X11: for a window with one rise scale [r > 0] on both edges and a
    width [w >= 0], as the driver builds it, [get_envelope] lies between
    0 and 1 at every point. *)
Theorem get_envelope_range (r c w x : R) :
  0 < r -> 0 <= w ->
  0 <= get_envelope r r (c - w * 0.5) (c + w * 0.5) x <= 1.
Proof.
  intros Hr Hw. split; [|left; apply get_envelope_bounds].
  unfold get_envelope.
  assert (H : tanh ((x - (c + w * 0.5)) / r) <= tanh ((x - (c - w * 0.5)) / r)).
  { apply tanh_le. unfold Rdiv. apply Rmult_le_compat_r.
    - left. now apply Rinv_0_lt_compat.
    - lra. }
  lra.
Qed.

Lemma get_envelope_range_witness :
  0 <= get_envelope 2 2 (5 - 3 * 0.5) (5 + 3 * 0.5) 1 <= 1.
Proof. apply (get_envelope_range 2 5 3 1); lra. Defined.

(** X12: the window the driver builds is symmetric about its centre:
    [get_envelope] takes the same value at [c + s] and at [c - s]. *)
Theorem get_envelope_symmetric (r c w s : R) :
  r <> 0 ->
  get_envelope r r (c - w * 0.5) (c + w * 0.5) (c + s) =
  get_envelope r r (c - w * 0.5) (c + w * 0.5) (c - s).
Proof.
  intros Hr. unfold get_envelope.
  replace ((c - s - (c - w * 0.5)) / r) with (- ((c + s - (c + w * 0.5)) / r))
    by (field; exact Hr).
  replace ((c - s - (c + w * 0.5)) / r) with (- ((c + s - (c - w * 0.5)) / r))
    by (field; exact Hr).
  rewrite !tanh_odd. ring.
Qed.

Lemma get_envelope_symmetric_witness :
  get_envelope 2 2 (5 - 3 * 0.5) (5 + 3 * 0.5) (5 + 1) =
  get_envelope 2 2 (5 - 3 * 0.5) (5 + 3 * 0.5) (5 - 1).
Proof. apply (get_envelope_symmetric 2 5 3 1). lra. Defined.

Lemma Driver_call_entries (xs : list R) (p : Pulse) (t : R) :
  Driver_call (Driver_init xs) p t =
  Some (map (fun x =>
               get_envelope (t_r p) (t_r p) (t_c p - t_w p * 0.5)
                            (t_c p + t_w p * 0.5) t
               * get_envelope (x_r p) (x_r p) (x_c p - x_w p * 0.5)
                              (x_c p + x_w p * 0.5) x
               * Rabs (k0 p) * a0 p
               * sin (k0 p * x - (w0 p + dw0 p) * t))
            xs).
Proof.
  unfold Driver_call, Driver_init. cbn [xax].
  rewrite broadcast_same by (now rewrite !length_map).
  f_equal. rewrite map_map, map2_map_map. reflexivity.
Qed.

(** X13: with a zero temporal or spatial width the two edges of the window
    coincide and the driver returns the zero field (nonzero rise scales). *)
Theorem Driver_call_zero_width (xs : list R) (p : Pulse) (t : R) :
  t_r p <> 0 -> x_r p <> 0 ->
  t_w p = 0 \/ x_w p = 0 ->
  Driver_call (Driver_init xs) p t = Some (zeros (length xs)).
Proof.
  intros _ _ Hw. rewrite Driver_call_entries. f_equal.
  rewrite (map_as_seq _ xs 0). apply all_zero_map. intros i _.
  unfold get_envelope. destruct Hw as [-> | ->];
    rewrite Rmult_0_l, Rminus_0_r, Rplus_0_r; ring.
Qed.

Lemma Driver_call_zero_width_witness :
  Driver_call (Driver_init [0; 1; 2]) (mkPulse 1 1 0 1 5 0 2 1 1 1) 3
  = Some (zeros (length [0; 1; 2])).
Proof.
  apply (Driver_call_zero_width [0; 1; 2] (mkPulse 1 1 0 1 5 0 2 1 1 1) 3);
    cbn; first [lra | left; reflexivity].
Defined.

(** X14: the drive field never exceeds the amplitude [|k0| |a0|]: every
    entry of the returned array is bounded by it in absolute value
    (nonzero rise scales). *)
Theorem Driver_call_bounded (xs : list R) (p : Pulse) (t : R) :
  t_r p <> 0 -> x_r p <> 0 ->
  exists out,
    Driver_call (Driver_init xs) p t = Some out /\
    length out = length xs /\
    forall i, Rabs (nth i out 0) <= Rabs (k0 p) * Rabs (a0 p).
Proof.
  intros _ _. rewrite Driver_call_entries. eexists. split; [reflexivity|].
  split; [apply length_map|]. intros i.
  assert (Hb : 0 <= Rabs (k0 p) * Rabs (a0 p))
    by (apply Rmult_le_pos; apply Rabs_pos).
  destruct (Nat.lt_ge_cases i (length xs)) as [Hi|Hi].
  - rewrite (nth_map_lt _ xs 0) by assumption.
    set (et := get_envelope _ _ _ _ t).
    set (ex := get_envelope _ _ _ _ (nth i xs 0)).
    set (sn := sin _).
    assert (Het : Rabs et <= 1).
    { unfold et. apply Rabs_le. pose proof (get_envelope_bounds
        (t_r p) (t_r p) (t_c p - t_w p * 0.5) (t_c p + t_w p * 0.5) t). lra. }
    assert (Hex : Rabs ex <= 1).
    { unfold ex. apply Rabs_le. pose proof (get_envelope_bounds
        (x_r p) (x_r p) (x_c p - x_w p * 0.5) (x_c p + x_w p * 0.5)
        (nth i xs 0)). lra. }
    assert (Hsn : Rabs sn <= 1)
      by (unfold sn; apply Rabs_le; apply SIN_bound).
    rewrite !Rabs_mult, Rabs_Rabsolu.
    pose proof (Rabs_pos et). pose proof (Rabs_pos ex).
    pose proof (Rabs_pos sn). pose proof (Rabs_pos (k0 p)).
    pose proof (Rabs_pos (a0 p)).
    assert (Hee : Rabs et * Rabs ex <= 1) by nra.
    assert (Hees : Rabs et * Rabs ex * Rabs sn <= 1) by nra.
    replace (Rabs et * Rabs ex * Rabs (k0 p) * Rabs (a0 p) * Rabs sn)
      with ((Rabs et * Rabs ex * Rabs sn) * (Rabs (k0 p) * Rabs (a0 p)))
      by ring.
    nra.
  - rewrite nth_overflow by (now rewrite length_map). rewrite Rabs_R0. exact Hb.
Qed.

Lemma Driver_call_bounded_witness :
  exists out,
    Driver_call (Driver_init [0; 1; 2]) (mkPulse 1 1 0 1 5 4 2 1 1 1) 3
      = Some out /\
    length out = length [0; 1; 2] /\
    forall i, Rabs (nth i out 0) <= Rabs 1 * Rabs 1.
Proof.
  apply (Driver_call_bounded [0; 1; 2] (mkPulse 1 1 0 1 5 4 2 1 1 1) 3);
    cbn; lra.
Defined.

(** ** The spectral differentiator on constants and its mean *)

Lemma Cre_gradient_mode0 (k s : R) : Cre (Cmul (Cmul Ci (RtoC k)) (RtoC s)) = 0.
Proof. simpl. ring. Qed.

Lemma gradient_repeat (c : R) (kx : list R) (N : nat) :
  length kx = N -> gradient (repeat c N) kx = Some (zeros N).
Proof.
  intros HL. rewrite gradient_same by (now rewrite repeat_length).
  f_equal.
  set (Y := map2 Cmul (map (fun k => Cmul Ci (RtoC k)) kx)
                 (fft (map RtoC (repeat c N)))).
  assert (LY : length Y = N).
  { unfold Y. rewrite length_map2, length_map, length_fft, length_map,
      repeat_length, HL. apply Nat.min_id. }
  assert (HY : forall k, (k < N)%nat ->
                 Cre (nth k Y C0) * 1 = 0 /\ (k <> 0%nat -> nth k Y C0 = C0)).
  { intros k Hk. unfold Y.
    rewrite (nth_map2 Cmul _ _ C0 C0)
      by (rewrite ?length_map, ?length_fft, ?length_map, ?repeat_length; lia).
    rewrite (nth_map_lt _ kx 0) by lia.
    destruct k as [|k].
    - split; [|congruence].
      rewrite fft_mode0 by (rewrite repeat_length; lia).
      rewrite Cre_gradient_mode0. ring.
    - rewrite fft_const by lia. rewrite Cmul_C0_r. split; [simpl; ring|reflexivity]. }
  unfold zeros. rewrite repeat_as_seq.
  apply list_as_map_seq with (d := 0).
  { now rewrite length_map, length_ifft. }
  intros m Hm. change 0 with (Cre C0) at 1. rewrite map_nth.
  rewrite Cre_nth_ifft by (rewrite LY; exact Hm). rewrite LY.
  rewrite (Rsum_ext _ (fun _ => 0)); [rewrite Rsum_zero; ring|].
  intros k Hk. destruct (HY k Hk) as [H0 Hz].
  destruct k as [|k].
  - replace (2 * PI * INR m * INR 0 / INR N) with 0
      by (simpl INR; unfold Rdiv; ring).
    rewrite sin_0, cos_0. lra.
  - rewrite Hz by lia. simpl. ring.
Qed.

(** X15: [gradient] returns the zero array on every constant array, for
    every real wavenumber array of the same length (also when its entry
    for the mode [k = 0] is not zero). *)
Theorem gradient_of_constant (c : R) (kx : list R) (N : nat) :
  length kx = N -> gradient (repeat c N) kx = Some (zeros N).
Proof. apply gradient_repeat. Qed.

Lemma gradient_of_constant_witness :
  gradient (repeat 7 3) [5; 1; -1] = Some (zeros 3).
Proof. exact (gradient_of_constant 7 [5; 1; -1] 3 eq_refl). Defined.

(** X16: the entries of [gradient arr kx] add up to zero, for every real
    array and every real wavenumber array of the same length. *)
Theorem gradient_zero_mean (arr kx : list R) :
  length kx = length arr ->
  exists g,
    gradient arr kx = Some g /\ length g = length arr /\
    Rsum (fun j => nth j g 0) (length arr) = 0.
Proof.
  intros HL. rewrite gradient_same by assumption.
  eexists. split; [reflexivity|].
  set (Y := map2 Cmul (map (fun k => Cmul Ci (RtoC k)) kx)
                 (fft (map RtoC arr))).
  assert (LY : length Y = length arr).
  { unfold Y. rewrite length_map2, length_map, length_fft, length_map, HL.
    apply Nat.min_id. }
  split; [now rewrite length_map, length_ifft|].
  destruct arr as [|a arr]; [reflexivity|].
  rewrite <- LY. rewrite sum_Cre_ifft by (rewrite LY; simpl; lia).
  unfold Y.
  rewrite (nth_map2 Cmul _ _ C0 C0)
    by (rewrite ?length_map, ?length_fft, ?length_map; simpl in *; lia).
  rewrite (nth_map_lt _ kx 0) by (simpl in *; lia).
  rewrite fft_mode0 by (simpl; lia).
  apply Cre_gradient_mode0.
Qed.

Lemma gradient_zero_mean_witness :
  exists g,
    gradient [1; 2; 4] [5; 1; -1] = Some g /\ length g = length [1; 2; 4] /\
    Rsum (fun j => nth j g 0) (length [1; 2; 4]) = 0.
Proof. exact (gradient_zero_mean [1; 2; 4] [5; 1; -1] eq_refl). Defined.

(** ** The filters outside the tabulated wavenumbers *)

Lemma klds_sorted (a b : nat) :
  (a < b < length (linspace 0.2 0.4 128))%nat ->
  nth a (linspace 0.2 0.4 128) 0 < nth b (linspace 0.2 0.4 128) 0.
Proof. rewrite length_linspace. apply klds_increasing. Qed.

Lemma klds_last_value : last (linspace 0.2 0.4 128) 0 = 0.4.
Proof. rewrite last_as_nth, length_linspace. apply klds_last. Qed.

Lemma table_last_value (f : R -> R) :
  last (map f (linspace 0.2 0.4 128)) 0 = f 0.4.
Proof.
  rewrite last_as_nth, length_map, length_linspace.
  rewrite (nth_map_lt f _ 0) by (rewrite length_linspace; lia).
  change (128 - 1)%nat with 127%nat. now rewrite klds_last.
Qed.

(** X17: below the table (a filter wavenumber under 0.2, the mode [k = 0]
    in particular) the restoring-force filter, the damping filter and the
    trapping filter are all zero. *)
Theorem filters_below_table (solver : R -> R -> R -> C) (kx kxr : list R)
  (physics : Physics) (i : nat) :
  (i < length kxr)%nat -> nth i kxr 0 < 0.2 ->
  exists vs pt,
    VelocityStepper_init solver kx kxr physics = Some vs /\
    ParticleTrapper_init solver kxr kx = Some pt /\
    (kinetic_real_wepw physics = true -> nth i (vs_wr_corr vs) 0 = 0) /\
    (landau_damping physics = true -> nth i (vs_wis vs) 0 = 0) /\
    nth i (pt_wis pt) 0 = 0.
Proof.
  intros Hi Hk.
  rewrite VelocityStepper_init_eq, ParticleTrapper_init_eq.
  do 2 eexists. split; [reflexivity|]. split; [reflexivity|].
  cbn [vs_wr_corr vs_wis pt_wis].
  assert (H0 : nth i kxr 0 < nth 0 (linspace 0.2 0.4 128) 0)
    by (rewrite klds_first; exact Hk).
  split; [|split].
  - intros ->. rewrite (nth_map_lt _ kxr 0) by assumption.
    rewrite interp1_below by assumption. unfold Rdiv. ring.
  - intros ->. rewrite (nth_map_lt _ kxr 0) by assumption.
    now apply interp1_below.
  - rewrite (nth_map_lt _ kxr 0) by assumption. now apply interp1_below.
Qed.

Lemma filters_below_table_witness :
  exists vs pt,
    VelocityStepper_init (fun _ _ k => (k, - k)) [0; -1] [0; 1]
                         (mkPhysics true true) = Some vs /\
    ParticleTrapper_init (fun _ _ k => (k, - k)) [0; 1] [0; -1] = Some pt /\
    (true = true -> nth 0 (vs_wr_corr vs) 0 = 0) /\
    (true = true -> nth 0 (vs_wis vs) 0 = 0) /\
    nth 0 (pt_wis pt) 0 = 0.
Proof.
  apply (filters_below_table (fun _ _ k => (k, - k)) [0; -1] [0; 1]
           (mkPhysics true true) 0); simpl; solve [lia | lra].
Defined.

(** X18: above the table (a filter wavenumber over 0.4) the enabled
    restoring-force filter is the root's real part at 0.4 divided by
    [sqrt (1 + 3 k^2)], the enabled damping filter is the root's imaginary
    part at 0.4, and the trapping filter is zero. *)
Theorem filters_above_table (solver : R -> R -> R -> C) (kx kxr : list R)
  (physics : Physics) (i : nat) :
  (i < length kxr)%nat -> 0.4 < nth i kxr 0 ->
  exists vs pt,
    VelocityStepper_init solver kx kxr physics = Some vs /\
    ParticleTrapper_init solver kxr kx = Some pt /\
    (kinetic_real_wepw physics = true ->
     nth i (vs_wr_corr vs) 0 =
       Cre (solver 1 1 0.4) / sqrt (1 + 3 * nth i kxr 0 ^ 2)) /\
    (landau_damping physics = true ->
     nth i (vs_wis vs) 0 = Cim (solver 1 1 0.4)) /\
    nth i (pt_wis pt) 0 = 0.
Proof.
  intros Hi Hk.
  rewrite VelocityStepper_init_eq, ParticleTrapper_init_eq.
  do 2 eexists. split; [reflexivity|]. split; [reflexivity|].
  cbn [vs_wr_corr vs_wis pt_wis].
  assert (HL : (0 < length (linspace 0.2 0.4 128))%nat)
    by (rewrite length_linspace; lia).
  assert (H1 : last (linspace 0.2 0.4 128) 0 < nth i kxr 0)
    by (rewrite klds_last_value; exact Hk).
  split; [|split].
  - intros ->. rewrite (nth_map_lt _ kxr 0) by assumption.
    rewrite (interp1_above _ _ _ _ klds_sorted _ HL H1).
    now rewrite (table_last_value (fun k => Cre (solver 1 1 k))).
  - intros ->. rewrite (nth_map_lt _ kxr 0) by assumption.
    rewrite (interp1_above _ _ _ _ klds_sorted _ HL H1).
    exact (table_last_value (fun k => Cim (solver 1 1 k))).
  - rewrite (nth_map_lt _ kxr 0) by assumption.
    exact (interp1_above _ _ _ _ klds_sorted _ HL H1).
Qed.

Lemma filters_above_table_witness :
  exists vs pt,
    VelocityStepper_init (fun _ _ k => (k, - k)) [0; -1] [0; 1]
                         (mkPhysics true true) = Some vs /\
    ParticleTrapper_init (fun _ _ k => (k, - k)) [0; 1] [0; -1] = Some pt /\
    (true = true ->
     nth 1 (vs_wr_corr vs) 0 =
       Cre ((fun _ _ k => (k, - k)) 1 1 0.4)
       / sqrt (1 + 3 * nth 1 [0; 1] 0 ^ 2)) /\
    (true = true ->
     nth 1 (vs_wis vs) 0 = Cim ((fun _ _ k => (k, - k)) 1 1 0.4)) /\
    nth 1 (pt_wis pt) 0 = 0.
Proof.
  apply (filters_above_table (fun _ _ k => (k, - k)) [0; -1] [0; 1]
           (mkPhysics true true) 1); simpl; solve [lia | lra].
Defined.

(** X19: the damping filter of the velocity stepper (option enabled) and
    the filter of the trapping stepper agree at every filter wavenumber
    up to 0.4; they differ only in the value taken above the table. *)
Theorem damping_filters_agree (solver : R -> R -> R -> C) (kx kxr : list R)
  (physics : Physics) (i : nat) :
  landau_damping physics = true ->
  nth i kxr 0 <= 0.4 ->
  exists vs pt,
    VelocityStepper_init solver kx kxr physics = Some vs /\
    ParticleTrapper_init solver kxr kx = Some pt /\
    nth i (vs_wis vs) 0 = nth i (pt_wis pt) 0.
Proof.
  intros Hl Hk.
  rewrite VelocityStepper_init_eq, ParticleTrapper_init_eq, Hl.
  do 2 eexists. split; [reflexivity|]. split; [reflexivity|].
  cbn [vs_wis pt_wis].
  destruct (Nat.lt_ge_cases i (length kxr)) as [Hi|Hi].
  - rewrite !(nth_map_lt _ kxr 0) by assumption.
    unfold interp1. destruct (Rltb (nth i kxr 0) _); [reflexivity|].
    rewrite klds_last_value. unfold Rltb.
    destruct (Rlt_dec 0.4 (nth i kxr 0)); [lra|reflexivity].
  - rewrite !nth_overflow by (now rewrite length_map). reflexivity.
Qed.

Lemma damping_filters_agree_witness :
  exists vs pt,
    VelocityStepper_init (fun _ _ k => (k, - k)) [0; -1] [0; 0.3]
                         (mkPhysics false true) = Some vs /\
    ParticleTrapper_init (fun _ _ k => (k, - k)) [0; 0.3] [0; -1] = Some pt /\
    nth 1 (vs_wis vs) 0 = nth 1 (pt_wis pt) 0.
Proof.
  apply (damping_filters_agree (fun _ _ k => (k, - k)) [0; -1] [0; 0.3]
           (mkPhysics false true) 1); simpl; solve [reflexivity | lra].
Defined.

Lemma interp1_at_node (fp : list R) (left right : R) (j : nat) :
  (j < 128)%nat ->
  interp1 (linspace 0.2 0.4 128) fp left right
          (nth j (linspace 0.2 0.4 128) 0)
  = nth j fp 0.
Proof.
  intros Hj. destruct (Nat.eq_dec j 127) as [->|Hne].
  - replace (nth 127 (linspace 0.2 0.4 128) 0)
      with (last (linspace 0.2 0.4 128) 0)
      by (rewrite last_as_nth, length_linspace; reflexivity).
    rewrite (interp1_last_node _ fp left right klds_sorted)
      by (rewrite length_linspace; lia).
    now rewrite length_linspace.
  - rewrite (interp1_chord _ fp left right klds_sorted _ j).
    + unfold Rdiv. ring.
    + rewrite length_linspace. lia.
    + apply Rle_refl.
    + apply klds_increasing. lia.
Qed.

(** X20: at a tabulated wavenumber the filters reproduce the table: where
    [kxr_i] is the [j]-th of the 128 wavenumbers, the trapping filter and
    the enabled damping filter are the imaginary part of the root there,
    and the enabled restoring-force filter is its real part divided by
    [sqrt (1 + 3 kxr_i^2)]. *)
Theorem filters_at_table_nodes (solver : R -> R -> R -> C) (kx kxr : list R)
  (physics : Physics) (i j : nat) :
  (i < length kxr)%nat -> (j < 128)%nat ->
  nth i kxr 0 = nth j (linspace 0.2 0.4 128) 0 ->
  exists vs pt,
    VelocityStepper_init solver kx kxr physics = Some vs /\
    ParticleTrapper_init solver kxr kx = Some pt /\
    (kinetic_real_wepw physics = true ->
     nth i (vs_wr_corr vs) 0 =
       Cre (solver 1 1 (nth i kxr 0)) / sqrt (1 + 3 * nth i kxr 0 ^ 2)) /\
    (landau_damping physics = true ->
     nth i (vs_wis vs) 0 = Cim (solver 1 1 (nth i kxr 0))) /\
    nth i (pt_wis pt) 0 = Cim (solver 1 1 (nth i kxr 0)).
Proof.
  intros Hi Hj Hk.
  rewrite VelocityStepper_init_eq, ParticleTrapper_init_eq.
  do 2 eexists. split; [reflexivity|]. split; [reflexivity|].
  cbn [vs_wr_corr vs_wis pt_wis].
  assert (Hj' : (j < length (linspace 0.2 0.4 128))%nat)
    by (rewrite length_linspace; exact Hj).
  split; [|split].
  - intros ->. rewrite (nth_map_lt _ kxr 0) by assumption.
    rewrite Hk, interp1_at_node by assumption.
    now rewrite (nth_map_lt (fun k => Cre (solver 1 1 k)) _ 0) by assumption.
  - intros ->. rewrite (nth_map_lt _ kxr 0) by assumption.
    rewrite Hk, interp1_at_node by assumption.
    now rewrite (nth_map_lt (fun k => Cim (solver 1 1 k)) _ 0) by assumption.
  - rewrite (nth_map_lt _ kxr 0) by assumption.
    rewrite Hk, interp1_at_node by assumption.
    now rewrite (nth_map_lt (fun k => Cim (solver 1 1 k)) _ 0) by assumption.
Qed.

Lemma filters_at_table_nodes_witness :
  exists vs pt,
    VelocityStepper_init (fun _ _ k => (k, - k)) [0; -1] [0; 0.2]
                         (mkPhysics true true) = Some vs /\
    ParticleTrapper_init (fun _ _ k => (k, - k)) [0; 0.2] [0; -1] = Some pt /\
    (true = true ->
     nth 1 (vs_wr_corr vs) 0 =
       Cre ((fun _ _ k => (k, - k)) 1 1 (nth 1 [0; 0.2] 0))
       / sqrt (1 + 3 * nth 1 [0; 0.2] 0 ^ 2)) /\
    (true = true ->
     nth 1 (vs_wis vs) 0
       = Cim ((fun _ _ k => (k, - k)) 1 1 (nth 1 [0; 0.2] 0))) /\
    nth 1 (pt_wis pt) 0 = Cim ((fun _ _ k => (k, - k)) 1 1 (nth 1 [0; 0.2] 0)).
Proof.
  apply (filters_at_table_nodes (fun _ _ k => (k, - k)) [0; -1] [0; 0.2]
           (mkPhysics true true) 1 0).
  - simpl; lia.
  - lia.
  - rewrite klds_first. reflexivity.
Defined.

(** ** The steppers without damping or field *)

(** X21: with the Landau-damping option disabled the velocity stepper does
    not depend on the trapping field: on an even grid every [delta] of the
    grid's length gives the same returned array. *)
Theorem VelocityStepper_call_without_damping (solver : R -> R -> R -> C)
  (kx kxr : list R) (physics : Physics) (n u p q : list R) (h : nat) :
  landau_damping physics = false ->
  (0 < h)%nat ->
  length kx = (2 * h)%nat -> length kxr = S h ->
  length n = (2 * h)%nat -> length u = (2 * h)%nat -> length p = (2 * h)%nat ->
  length q = (2 * h)%nat ->
  (forall x, In x n -> x <> 0) ->
  exists vs out,
    VelocityStepper_init solver kx kxr physics = Some vs /\
    forall delta, length delta = (2 * h)%nat ->
                  VelocityStepper_call vs n u p q delta = Some out.
Proof.
  intros Hl Hh Hkx Hkxr Hn Hu Hp Hq _.
  destruct (VelocityStepper_init solver kx kxr physics) as [vs|] eqn:Ei;
    [|rewrite VelocityStepper_init_eq in Ei; discriminate].
  destruct (length_filter_arrays _ _ _ _ _ Ei) as (Ekx & Lwr & Lwi).
  assert (Zw : forall k, nth k (vs_wis vs) 0 = 0).
  { rewrite VelocityStepper_init_eq, Hl in Ei. injection Ei as <-.
    cbn [vs_wis]. intros k. apply nth_zeros. }
  destruct (gradient_total u (vs_kx vs)) as (du & Eu & _); [congruence|].
  destruct (gradient_total p (vs_kx vs)) as (dp & Ep & _); [congruence|].
  exists vs.
  exists (map (fun i => - nth i u 0 * nth i du 0
                        - nth i (irfft (map2 Cscal (vs_wr_corr vs)
                                          (rfft (map2 Rdiv dp n)))) 0
                        - nth i q 0)
              (seq 0 (2 * h))).
  split; [reflexivity|]. intros delta Hd.
  destruct (VelocityStepper_call_even vs n u p q delta h)
    as (du' & dp' & rf & ld & Eu' & _ & Ep' & _ & -> & _ & -> & _ & ->);
    try congruence.
  rewrite Eu in Eu'. injection Eu' as <-.
  rewrite Ep in Ep'. injection Ep' as <-.
  f_equal. apply map_seq_ext. intros i Hi.
  rewrite (irfft_zero _ (zero_filter _ _ Zw)).
  unfold Rdiv. ring.
Qed.

Lemma VelocityStepper_call_without_damping_witness :
  exists vs out,
    VelocityStepper_init (fun _ _ k => (k, - k)) [0; -1] [0; 1]
                         (mkPhysics true false) = Some vs /\
    forall delta, length delta = (2 * 1)%nat ->
                  VelocityStepper_call vs [1; 1] [1; 2] [3; 4] [0; 0] delta
                  = Some out.
Proof.
  assert (Hn : forall x : R, In x [1; 1] -> x <> 0)
    by (intros x [<-|[<-|[]]]; lra).
  exact (VelocityStepper_call_without_damping (fun _ _ k => (k, - k))
           [0; -1] [0; 1] (mkPhysics true false) [1; 1] [1; 2] [3; 4] [0; 0] 1
           eq_refl (le_n 1) eq_refl eq_refl eq_refl eq_refl eq_refl eq_refl Hn).
Defined.

(** X22: without a field ([e = 0]) the forcing term of the trapping stepper
    vanishes: on an even grid it returns
    [-3.757 (d(delta)/dx) - 0.001 delta] entry by entry, whatever the
    stored filter. *)
Theorem ParticleTrapper_call_without_field (self : ParticleTrapper)
  (delta : list R) (h : nat) :
  (0 < h)%nat ->
  length (pt_kx self) = (2 * h)%nat -> length (pt_wis self) = S h ->
  length delta = (2 * h)%nat ->
  exists dd,
    gradient delta (pt_kx self) = Some dd /\
    ParticleTrapper_call self (zeros (2 * h)) delta =
      Some (map (fun i => -3.757 * nth i dd 0 - 0.001 * nth i delta 0)
                (seq 0 (2 * h))).
Proof.
  intros Hh Hkx Hw Hd.
  destruct (ParticleTrapper_call_even self (zeros (2 * h)) delta h)
    as (dd & Eg & _ & ->); rewrite ?length_zeros; try assumption; try reflexivity.
  exists dd. split; [exact Eg|]. f_equal. apply map_seq_ext. intros i Hi.
  destruct (half_spectrum_filter_same (pt_wis self) (zeros (2 * h)) h Hh
              (length_zeros _) Hw) as [_ Lf].
  rewrite (nth_map_lt _ _ 0) by (rewrite Lf; exact Hi).
  rewrite (filter_of_zero _ _ (nth_zeros (2 * h))), Rabs_R0. lra.
Qed.

Lemma ParticleTrapper_call_without_field_witness :
  exists dd,
    gradient [3; 4] [0; -1] = Some dd /\
    ParticleTrapper_call (mkParticleTrapper [0; 1] [5; 6] [0; -1])
                         (zeros (2 * 1)) [3; 4] =
      Some (map (fun i => -3.757 * nth i dd 0 - 0.001 * nth i [3; 4] 0)
                (seq 0 (2 * 1))).
Proof.
  exact (ParticleTrapper_call_without_field
           (mkParticleTrapper [0; 1] [5; 6] [0; -1]) [3; 4] 1
           (le_n 1) eq_refl eq_refl eq_refl).
Defined.

(** X23: a uniform trapping field relaxes uniformly: with [e = 0] and
    [delta = c] everywhere on an even grid the trapping stepper returns
    [-0.001 c] everywhere. *)
Theorem ParticleTrapper_call_uniform (self : ParticleTrapper) (c : R) (h : nat) :
  (0 < h)%nat ->
  length (pt_kx self) = (2 * h)%nat -> length (pt_wis self) = S h ->
  ParticleTrapper_call self (zeros (2 * h)) (repeat c (2 * h)) =
  Some (repeat (-0.001 * c) (2 * h)).
Proof.
  intros Hh Hkx Hw.
  destruct (ParticleTrapper_call_even self (zeros (2 * h)) (repeat c (2 * h)) h)
    as (dd & Eg & _ & ->);
    rewrite ?length_zeros, ?repeat_length; try assumption; try reflexivity.
  f_equal. rewrite (repeat_as_seq (-0.001 * c)).
  apply map_seq_ext. intros i Hi.
  destruct (half_spectrum_filter_same (pt_wis self) (zeros (2 * h)) h Hh
              (length_zeros _) Hw) as [_ Lf].
  rewrite (nth_map_lt _ _ 0) by (rewrite Lf; exact Hi).
  rewrite (filter_of_zero _ _ (nth_zeros (2 * h))), Rabs_R0.
  rewrite (gradient_repeat c (pt_kx self) (2 * h) Hkx) in Eg.
  injection Eg as <-.
  rewrite nth_zeros, nth_repeat_lt by assumption. lra.
Qed.

Lemma ParticleTrapper_call_uniform_witness :
  ParticleTrapper_call (mkParticleTrapper [0; 1] [5; 6] [0; -1])
                       (zeros (2 * 1)) (repeat 7 (2 * 1))
  = Some (repeat (-0.001 * 7) (2 * 1)).
Proof.
  exact (ParticleTrapper_call_uniform
           (mkParticleTrapper [0; 1] [5; 6] [0; -1]) 7 1
           (le_n 1) eq_refl eq_refl).
Defined.

(** ** The Poisson solver: real arrays, linearity *)

Lemma PoissonSolver_same (ook : list C) (dn : list R) :
  length ook = length dn ->
  PoissonSolver_call (PoissonSolver_init ook) dn =
  Some (map Cre (ifft (map2 Cmul (map (Cmul Ci) ook) (fft (map RtoC dn))))).
Proof.
  intros H. unfold PoissonSolver_call, PoissonSolver_init. cbn [one_over_kx].
  rewrite broadcast_same by (now rewrite length_map, length_fft, length_map).
  reflexivity.
Qed.

(** X24: with a real [one_over_kx] the returned field has zero mean, that
    is a zero mode [k = 0], for every [dn] of the same length and whatever
    the entries of [one_over_kx], the one for [k = 0] included. *)
Theorem PoissonSolver_real_zero_mean (ook dn : list R) :
  length ook = length dn ->
  exists E,
    PoissonSolver_call (PoissonSolver_init (map RtoC ook)) dn = Some E /\
    length E = length dn /\
    nth 0 (fft (map RtoC E)) C0 = C0.
Proof.
  intros HL. destruct dn as [|d dn].
  - destruct ook; [|discriminate]. exists []. repeat split.
  - destruct (PoissonSolver_mode0 (map RtoC ook) (d :: dn))
      as (E & Ec & LE & Em); [simpl; lia|now rewrite length_map|].
    exists E. split; [exact Ec|]. split; [exact LE|].
    rewrite Em, nth_RtoC, Cre_gradient_mode0. reflexivity.
Qed.

Lemma PoissonSolver_real_zero_mean_witness :
  exists E,
    PoissonSolver_call (PoissonSolver_init (map RtoC [5; 1; -1])) [1; 2; 4]
      = Some E /\
    length E = length [1; 2; 4] /\
    nth 0 (fft (map RtoC E)) C0 = C0.
Proof.
  exact (PoissonSolver_real_zero_mean [5; 1; -1] [1; 2; 4] eq_refl).
Defined.

(** X25: the Poisson solver is linear in the density: for scalars [a], [b]
    and densities [f], [g] of the length of [one_over_kx], the field of
    [a f + b g] is [a] times the field of [f] plus [b] times the field
    of [g]. *)
Theorem PoissonSolver_linear (a b : R) (ook : list C) (f g : list R) :
  length f = length ook -> length g = length ook ->
  exists Ef Eg,
    PoissonSolver_call (PoissonSolver_init ook) f = Some Ef /\
    PoissonSolver_call (PoissonSolver_init ook) g = Some Eg /\
    PoissonSolver_call (PoissonSolver_init ook)
                       (map2 Rplus (map (Rmult a) f) (map (Rmult b) g)) =
      Some (map2 Rplus (map (Rmult a) Ef) (map (Rmult b) Eg)).
Proof.
  intros Hf Hg.
  rewrite !PoissonSolver_same by (rewrite ?length_map2, ?length_map; lia).
  do 2 eexists. split; [reflexivity|]. split; [reflexivity|].
  f_equal.
  rewrite RtoC_lin by congruence.
  rewrite fft_lin by (rewrite !length_map; congruence).
  rewrite mul_lin by (rewrite length_fft, !length_map; congruence).
  rewrite ifft_lin by (rewrite !length_map2, !length_fft, !length_map; lia).
  apply Cre_lin.
  rewrite !length_ifft, !length_map2, !length_fft, !length_map. lia.
Qed.

Lemma PoissonSolver_linear_witness :
  exists Ef Eg,
    PoissonSolver_call (PoissonSolver_init [C0; (1, 0)]) [1; 2] = Some Ef /\
    PoissonSolver_call (PoissonSolver_init [C0; (1, 0)]) [3; 5] = Some Eg /\
    PoissonSolver_call (PoissonSolver_init [C0; (1, 0)])
                       (map2 Rplus (map (Rmult 2) [1; 2]) (map (Rmult 7) [3; 5])) =
      Some (map2 Rplus (map (Rmult 2) Ef) (map (Rmult 7) Eg)).
Proof.
  exact (PoissonSolver_linear 2 7 [C0; (1, 0)] [1; 2] [3; 5] eq_refl eq_refl).
Defined.

(** ** A single Fourier mode *)

Lemma Rsum_two (f : nat -> R) (n a b : nat) :
  (a < n)%nat -> (b < n)%nat -> a <> b ->
  (forall i, (i < n)%nat -> i <> a -> i <> b -> f i = 0) ->
  Rsum f n = f a + f b.
Proof.
  intros Ha Hb Hab H.
  rewrite (Rsum_ext f (fun i => (if Nat.eqb i a then f i else 0)
                                + (if Nat.eqb i a then 0 else f i))).
  2:{ intros i _. destruct (Nat.eqb i a); ring. }
  rewrite Rsum_plus.
  rewrite (Rsum_single _ n a Ha), (Rsum_single _ n b Hb).
  - rewrite Nat.eqb_refl.
    destruct (Nat.eqb_spec b a); [congruence|reflexivity].
  - intros i Hi Hne. destruct (Nat.eqb_spec i a); [reflexivity|].
    now apply H.
  - intros i Hi Hne. destruct (Nat.eqb_spec i a); [congruence|reflexivity].
Qed.

Section Mode.

Variable N : nat.
Hypothesis HN : (0 < N)%nat.

Let th (a b : nat) : R := 2 * PI * INR a * INR b / INR N.

Lemma th_comm (a b : nat) : th a b = th b a.
Proof. unfold th, Rdiv. ring. Qed.

Lemma th_shift (a b : nat) :
  (b <= N)%nat -> th a (N - b) = 2 * PI * INR a - th a b.
Proof.
  intros Hb. unfold th. rewrite minus_INR by assumption.
  field. apply not_0_INR. lia.
Qed.

Lemma cos_th_shift (a b : nat) :
  (b <= N)%nat -> cos (th a (N - b)) = cos (th a b).
Proof.
  intros Hb. rewrite th_shift by assumption.
  rewrite cos_minus, cos_full_turns, sin_full_turns. ring.
Qed.

Lemma sin_th_shift (a b : nat) :
  (b <= N)%nat -> sin (th a (N - b)) = - sin (th a b).
Proof.
  intros Hb. rewrite th_shift by assumption.
  rewrite sin_minus, cos_full_turns, sin_full_turns. ring.
Qed.

Lemma cos_difference_sum (q k : nat) :
  (q < N)%nat -> (k < N)%nat ->
  Rsum (fun m => cos (th q m - th k m)) N = if Nat.eqb q k then INR N else 0.
Proof. intros Hq Hk. exact (kernel_sum N q k HN Hq Hk). Qed.

Lemma sin_difference_sum (q k : nat) :
  (q < N)%nat -> (k < N)%nat ->
  Rsum (fun m => sin (th q m - th k m)) N = 0.
Proof.
  intros Hq Hk.
  assert (HN0 : INR N <> 0) by (apply not_0_INR; lia).
  destruct (Nat.lt_trichotomy q k) as [Hlt|[->|Hgt]].
  - destruct (roots_of_unity_sum N (k - q)) as [_ Hs]; [lia|].
    rewrite (Rsum_ext _ (fun m => -1 * sin (2 * PI * INR m * INR (k - q) / INR N))).
    + rewrite Rsum_scal, Hs. ring.
    + intros m _.
      transitivity (sin (- (2 * PI * INR m * INR (k - q) / INR N))).
      * f_equal. unfold th. rewrite minus_INR by lia. field. exact HN0.
      * rewrite sin_neg. ring.
  - rewrite (Rsum_ext _ (fun _ => 0)); [apply Rsum_zero|].
    intros m _. rewrite <- sin_0. f_equal. ring.
  - destruct (roots_of_unity_sum N (q - k)) as [_ Hs]; [lia|].
    rewrite <- Hs. apply Rsum_ext. intros m _. f_equal.
    unfold th. rewrite minus_INR by lia. field. exact HN0.
Qed.

Lemma th_sum_as_difference (q k m : nat) :
  (0 < k <= N)%nat ->
  th q m + th k m = (th q m - th (N - k) m) + 2 * PI * INR m.
Proof.
  intros Hk. rewrite (th_comm (N - k) m), th_shift by lia.
  rewrite (th_comm m k). ring.
Qed.

Lemma cos_sum_sum (q k : nat) :
  (0 < q < N)%nat -> (k < N)%nat ->
  Rsum (fun m => cos (th q m + th k m)) N
  = if Nat.eqb (q + k) N then INR N else 0.
Proof.
  intros Hq Hk. destruct k as [|k].
  - rewrite (Rsum_ext _ (fun m => cos (th q m - th 0 m))).
    + rewrite cos_difference_sum by lia.
      destruct (Nat.eqb_spec q 0), (Nat.eqb_spec (q + 0) N); try lia; reflexivity.
    + intros m _. f_equal. unfold th. simpl INR. unfold Rdiv. ring.
  - rewrite (Rsum_ext _ (fun m => cos (th q m - th (N - S k) m))).
    + rewrite cos_difference_sum by lia.
      destruct (Nat.eqb_spec q (N - S k)), (Nat.eqb_spec (q + S k) N);
        try lia; reflexivity.
    + intros m _. rewrite th_sum_as_difference by lia.
      rewrite cos_plus, cos_full_turns, sin_full_turns. ring.
Qed.

Lemma sin_sum_sum (q k : nat) :
  (0 < q < N)%nat -> (k < N)%nat ->
  Rsum (fun m => sin (th q m + th k m)) N = 0.
Proof.
  intros Hq Hk. destruct k as [|k].
  - rewrite (Rsum_ext _ (fun m => sin (th q m - th 0 m))).
    + apply sin_difference_sum; lia.
    + intros m _. f_equal. unfold th. simpl INR. unfold Rdiv. ring.
  - rewrite (Rsum_ext _ (fun m => sin (th q m - th (N - S k) m))).
    + apply sin_difference_sum; lia.
    + intros m _. rewrite th_sum_as_difference by lia.
      rewrite sin_plus, cos_full_turns, sin_full_turns. ring.
Qed.

(** Sums of products of two modes over one period. *)
Lemma mode_products (q k : nat) :
  (0 < q < N)%nat -> (k < N)%nat ->
  Rsum (fun m => cos (th q m) * cos (th k m)) N
    = ((if Nat.eqb q k then INR N else 0)
       + (if Nat.eqb (q + k) N then INR N else 0)) / 2 /\
  Rsum (fun m => sin (th q m) * sin (th k m)) N
    = ((if Nat.eqb q k then INR N else 0)
       - (if Nat.eqb (q + k) N then INR N else 0)) / 2 /\
  Rsum (fun m => sin (th q m) * cos (th k m)) N = 0 /\
  Rsum (fun m => cos (th q m) * sin (th k m)) N = 0.
Proof.
  intros Hq Hk.
  assert (Hq' : (q < N)%nat) by lia.
  pose proof (cos_difference_sum q k Hq' Hk) as Dc.
  pose proof (sin_difference_sum q k Hq' Hk) as Ds.
  pose proof (cos_sum_sum q k Hq Hk) as Sc.
  pose proof (sin_sum_sum q k Hq Hk) as Ss.
  rewrite <- Dc, <- Sc. repeat split.
  - rewrite <- Rsum_plus. unfold Rdiv. rewrite <- Rsum_scal_r.
    apply Rsum_ext. intros m _. rewrite cos_minus, cos_plus. field.
  - rewrite <- Rsum_minus. unfold Rdiv. rewrite <- Rsum_scal_r.
    apply Rsum_ext. intros m _. rewrite cos_minus, cos_plus. field.
  - replace 0 with ((0 + 0) / 2) by field.
    rewrite <- Ss at 1. rewrite <- Ds at 1.
    rewrite <- Rsum_plus. unfold Rdiv. rewrite <- Rsum_scal_r.
    apply Rsum_ext. intros m _. rewrite sin_minus, sin_plus. field.
  - replace 0 with ((0 - 0) / 2) by field.
    rewrite <- Ss at 1. rewrite <- Ds at 1.
    rewrite <- Rsum_minus. unfold Rdiv. rewrite <- Rsum_scal_r.
    apply Rsum_ext. intros m _. rewrite sin_minus, sin_plus. field.
Qed.

End Mode.

Section SingleMode.

Variables (N q : nat) (A B : R).
Hypothesis Hq0 : (0 < q)%nat.
Hypothesis Hq : (2 * q < N)%nat.

Let th (a b : nat) : R := 2 * PI * INR a * INR b / INR N.

Let f : list R :=
  map (fun m => A * cos (th q m) + B * sin (th q m)) (seq 0 N).

Lemma length_mode : length f = N.
Proof. unfold f. now rewrite length_map, length_seq. Qed.

Lemma nth_mode (m : nat) :
  (m < N)%nat -> nth m f 0 = A * cos (th q m) + B * sin (th q m).
Proof.
  intros Hm.
  exact (nth_map_seq (fun m => A * cos (th q m) + B * sin (th q m)) N m 0 Hm).
Qed.

(** The transform of a mode has two entries, at [q] and at [N - q]. *)
Lemma mode_spectrum (k : nat) :
  (k < N)%nat ->
  nth k (fft (map RtoC f)) C0 =
  (A * (((if Nat.eqb q k then INR N else 0)
         + (if Nat.eqb (q + k) N then INR N else 0)) / 2),
   - (B * (((if Nat.eqb q k then INR N else 0)
            - (if Nat.eqb (q + k) N then INR N else 0)) / 2))).
Proof.
  intros Hk.
  assert (HN : (0 < N)%nat) by lia.
  destruct (mode_products N HN q k) as (Pcc & Pss & Psc & Pcs); [lia|lia|].
  rewrite nth_fft by (now rewrite length_map, length_mode).
  rewrite length_map, length_mode.
  apply C_eq.
  - rewrite Cre_Csum. cbn [Cre fst].
    rewrite <- Pcc.
    rewrite <- (Rplus_0_r (A * _)), <- (Rmult_0_r B), <- Psc.
    rewrite <- !Rsum_scal, <- Rsum_plus.
    apply Rsum_ext. intros m Hm.
    rewrite nth_RtoC, nth_mode by assumption.
    unfold Cmul, RtoC, cis. cbn [Cre Cim fst snd].
    rewrite cos_neg, sin_neg.
    replace (2 * PI * INR m * INR k / INR N)
      with (2 * PI * INR k * INR m / INR N) by (unfold Rdiv; ring).
    unfold th. ring.
  - rewrite Cim_Csum. cbn [Cim snd].
    rewrite <- Pss.
    rewrite <- (Rplus_0_l (- _)), <- (Rmult_0_r (- A)), <- Pcs.
    rewrite Ropp_mult_distr_l.
    rewrite <- !Rsum_scal, <- Rsum_plus.
    apply Rsum_ext. intros m Hm.
    rewrite nth_RtoC, nth_mode by assumption.
    unfold Cmul, RtoC, cis. cbn [Cre Cim fst snd].
    rewrite cos_neg, sin_neg.
    replace (2 * PI * INR m * INR k / INR N)
      with (2 * PI * INR k * INR m / INR N) by (unfold Rdiv; ring).
    unfold th. ring.
Qed.

Variables (kx : list R) (kappa : R).
Hypothesis Hkx : length kx = N.
Hypothesis Hkq : nth q kx 0 = kappa.
Hypothesis Hkq' : nth (N - q) kx 0 = - kappa.

(** The derivative of a mode below the Nyquist wavenumber is exact. *)
Lemma single_mode_derivative :
  gradient f kx =
  Some (map (fun m => kappa * (B * cos (th q m) - A * sin (th q m)))
            (seq 0 N)).
Proof.
  assert (HN : (0 < N)%nat) by lia.
  assert (HN0 : INR N <> 0) by (apply not_0_INR; lia).
  rewrite gradient_same by (now rewrite length_mode).
  f_equal.
  set (Y := map2 Cmul (map (fun k => Cmul Ci (RtoC k)) kx) (fft (map RtoC f))).
  assert (LY : length Y = N).
  { unfold Y. rewrite length_map2, length_map, length_fft, length_map,
      length_mode, Hkx. apply Nat.min_id. }
  assert (HY : forall k, (k < N)%nat ->
    nth k Y C0 =
    (nth k kx 0 * (B * (((if Nat.eqb q k then INR N else 0)
                         - (if Nat.eqb (q + k) N then INR N else 0)) / 2)),
     nth k kx 0 * (A * (((if Nat.eqb q k then INR N else 0)
                         + (if Nat.eqb (q + k) N then INR N else 0)) / 2)))).
  { intros k Hk. unfold Y.
    rewrite (nth_map2 Cmul _ _ C0 C0)
      by (rewrite ?length_map, ?length_fft, ?length_map, ?length_mode; lia).
    rewrite (nth_map_lt _ kx 0) by lia.
    rewrite mode_spectrum by assumption.
    apply C_eq; simpl; ring. }
  apply list_as_map_seq with (d := 0).
  { now rewrite length_map, length_ifft. }
  intros j Hj. change 0 with (Cre C0) at 1. rewrite map_nth.
  rewrite Cre_nth_ifft by (rewrite LY; exact Hj). rewrite LY.
  rewrite (Rsum_two _ N q (N - q)); try lia.
  - rewrite !HY by lia. cbn [Cre Cim fst snd].
    rewrite Hkq, Hkq'.
    rewrite Nat.eqb_refl.
    replace (Nat.eqb (q + q) N) with false
      by (symmetry; apply Nat.eqb_neq; lia).
    replace (Nat.eqb q (N - q)) with false
      by (symmetry; apply Nat.eqb_neq; lia).
    replace (Nat.eqb (q + (N - q)) N) with true
      by (symmetry; apply Nat.eqb_eq; lia).
    rewrite (cos_th_shift N HN j q), (sin_th_shift N HN j q) by lia.
    replace (2 * PI * INR j * INR q / INR N) with (th q j)
      by (unfold th, Rdiv; ring).
    field. exact HN0.
  - intros k Hk Hne1 Hne2. rewrite HY by assumption. cbn [Cre Cim fst snd].
    replace (Nat.eqb q k) with false by (symmetry; apply Nat.eqb_neq; lia).
    replace (Nat.eqb (q + k) N) with false
      by (symmetry; apply Nat.eqb_neq; lia).
    unfold Rdiv. ring.
Qed.

End SingleMode.

(** X26: [gradient] is exact on a Fourier mode below the Nyquist
    wavenumber: on a grid of [N] points, where [kx] holds [kappa] at the
    mode [q] ([0 < 2 q < N]) and [- kappa] at the mode [N - q], the array
    [A cos (2 pi q m / N) + B sin (2 pi q m / N)] is sent to
    [kappa (B cos (2 pi q m / N) - A sin (2 pi q m / N))]. *)
Theorem gradient_single_mode (N q : nat) (A B kappa : R) (kx : list R) :
  (0 < q)%nat -> (2 * q < N)%nat ->
  length kx = N -> nth q kx 0 = kappa -> nth (N - q) kx 0 = - kappa ->
  gradient (map (fun m => A * cos (2 * PI * INR q * INR m / INR N)
                          + B * sin (2 * PI * INR q * INR m / INR N))
                (seq 0 N)) kx
  = Some (map (fun m => kappa * (B * cos (2 * PI * INR q * INR m / INR N)
                                 - A * sin (2 * PI * INR q * INR m / INR N)))
              (seq 0 N)).
Proof. intros. now apply single_mode_derivative. Qed.

Lemma gradient_single_mode_witness :
  gradient (map (fun m => 2 * cos (2 * PI * INR 1 * INR m / INR 3)
                          + 5 * sin (2 * PI * INR 1 * INR m / INR 3))
                (seq 0 3)) [0; 7; -7]
  = Some (map (fun m => 7 * (5 * cos (2 * PI * INR 1 * INR m / INR 3)
                             - 2 * sin (2 * PI * INR 1 * INR m / INR 3)))
              (seq 0 3)).
Proof.
  apply (gradient_single_mode 3 1 2 5 7 [0; 7; -7]);
    solve [lia | reflexivity].
Defined.

Lemma PoissonSolver_real_as_gradient (ook dn : list R) :
  length ook = length dn ->
  PoissonSolver_call (PoissonSolver_init (map RtoC ook)) dn = gradient dn ook.
Proof.
  intros H.
  rewrite PoissonSolver_same by (now rewrite length_map).
  rewrite gradient_same by assumption.
  now rewrite map_map.
Qed.

(** X27: the Poisson solver and the differentiator are consistent on a
    Fourier mode below the Nyquist wavenumber: where [kx] holds [kappa]
    and [- kappa] at the modes [q] and [N - q] and the real [one_over_kx]
    holds their inverses, the derivative of the field of
    [dn = A cos (2 pi q m / N) + B sin (2 pi q m / N)] is [- dn]. *)
Theorem PoissonSolver_gradient_single_mode (N q : nat) (A B kappa : R)
  (kx ook : list R) :
  (0 < q)%nat -> (2 * q < N)%nat ->
  length kx = N -> length ook = N -> kappa <> 0 ->
  nth q kx 0 = kappa -> nth (N - q) kx 0 = - kappa ->
  nth q ook 0 = / kappa -> nth (N - q) ook 0 = - / kappa ->
  exists E,
    PoissonSolver_call
      (PoissonSolver_init (map RtoC ook))
      (map (fun m => A * cos (2 * PI * INR q * INR m / INR N)
                     + B * sin (2 * PI * INR q * INR m / INR N))
           (seq 0 N)) = Some E /\
    gradient E kx =
      Some (map Ropp
              (map (fun m => A * cos (2 * PI * INR q * INR m / INR N)
                             + B * sin (2 * PI * INR q * INR m / INR N))
                   (seq 0 N))).
Proof.
  intros Hq0 Hq Hkx Hook Hk Hkq Hkq' Hoq Hoq'.
  rewrite PoissonSolver_real_as_gradient
    by (now rewrite length_map, length_seq).
  rewrite (single_mode_derivative N q A B Hq0 Hq ook (/ kappa) Hook Hoq Hoq').
  eexists. split; [reflexivity|].
  rewrite (map_ext _
    (fun m => (/ kappa * B) * cos (2 * PI * INR q * INR m / INR N)
              + (- (/ kappa * A)) * sin (2 * PI * INR q * INR m / INR N)))
    by (intros; ring).
  rewrite (single_mode_derivative N q (/ kappa * B) (- (/ kappa * A)) Hq0 Hq
             kx kappa Hkx Hkq Hkq').
  f_equal. rewrite map_map. apply map_ext. intros m. field. exact Hk.
Qed.

Lemma PoissonSolver_gradient_single_mode_witness :
  exists E,
    PoissonSolver_call
      (PoissonSolver_init (map RtoC [0; / 7; - / 7]))
      (map (fun m => 2 * cos (2 * PI * INR 1 * INR m / INR 3)
                     + 5 * sin (2 * PI * INR 1 * INR m / INR 3))
           (seq 0 3)) = Some E /\
    gradient E [0; 7; -7] =
      Some (map Ropp
              (map (fun m => 2 * cos (2 * PI * INR 1 * INR m / INR 3)
                             + 5 * sin (2 * PI * INR 1 * INR m / INR 3))
                   (seq 0 3))).
Proof.
  apply (PoissonSolver_gradient_single_mode 3 1 2 5 7 [0; 7; -7]
           [0; / 7; - / 7]);
    solve [lia | reflexivity | lra].
Defined.

(** ** Filters that do not match the half-spectrum *)

Lemma length_rfft_even (f : list R) (h : nat) :
  (0 < h)%nat -> length f = (2 * h)%nat -> length (rfft f) = S h.
Proof.
  intros Hh H. rewrite length_rfft by lia. rewrite H.
  rewrite Nat.mul_comm, Nat.div_mul by lia. lia.
Qed.

(** X28: a velocity stepper built on a filter grid [kxr] whose length is
    neither [h + 1] (the half-spectrum length) nor 1 raises on every call
    with arguments of the even grid length [2 h]. *)
Theorem VelocityStepper_call_filter_mismatch (solver : R -> R -> R -> C)
  (kx kxr : list R) (physics : Physics) (n u p q delta : list R) (h : nat) :
  (0 < h)%nat ->
  length n = (2 * h)%nat -> length u = (2 * h)%nat -> length p = (2 * h)%nat ->
  length q = (2 * h)%nat -> length delta = (2 * h)%nat ->
  length kxr <> S h -> length kxr <> 1%nat ->
  exists vs,
    VelocityStepper_init solver kx kxr physics = Some vs /\
    VelocityStepper_call vs n u p q delta = None.
Proof.
  intros Hh Hn Hu Hp Hq Hd Hk Hk1.
  destruct (VelocityStepper_init solver kx kxr physics) as [vs|] eqn:Ei;
    [|rewrite VelocityStepper_init_eq in Ei; discriminate].
  destruct (length_filter_arrays _ _ _ _ _ Ei) as (_ & Lwr & _).
  exists vs. split; [reflexivity|].
  unfold VelocityStepper_call.
  destruct (gradient u (vs_kx vs)) as [gu|]; [|reflexivity]. cbn [bind].
  destruct (broadcast Rmult (map Ropp u) gu) as [t1|]; [|reflexivity].
  cbn [bind].
  destruct (gradient p (vs_kx vs)) as [gp|]; [|reflexivity]. cbn [bind].
  destruct (broadcast Rdiv gp n) as [g|] eqn:Eg; [|reflexivity]. cbn [bind].
  assert (Lg : length g = (2 * h)%nat)
    by (rewrite (broadcast_length_r _ _ _ _ Eg); lia).
  unfold restoring_force_term.
  rewrite (broadcast_clash Cscal)
    by (rewrite ?(length_rfft_even g h Hh Lg); lia).
  reflexivity.
Qed.

Lemma VelocityStepper_call_filter_mismatch_witness :
  exists vs,
    VelocityStepper_init (fun _ _ k => (k, - k)) [0; 1; 2; -1] [0; 1]
                         (mkPhysics true true) = Some vs /\
    VelocityStepper_call vs [1; 1; 1; 1] [1; 2; 3; 4] [1; 1; 1; 1]
                         [0; 0; 0; 0] [0; 0; 0; 0] = None.
Proof.
  apply (VelocityStepper_call_filter_mismatch (fun _ _ k => (k, - k))
           [0; 1; 2; -1] [0; 1] (mkPhysics true true) _ _ _ _ _ 2);
    simpl; lia.
Defined.

(** X29: a trapping stepper built on a filter grid [kxr] whose length is
    neither [h + 1] nor 1 raises on every call with arguments of the even
    grid length [2 h]. *)
Theorem ParticleTrapper_call_filter_mismatch (solver : R -> R -> R -> C)
  (kxr kx e delta : list R) (h : nat) :
  (0 < h)%nat ->
  length e = (2 * h)%nat -> length delta = (2 * h)%nat ->
  length kxr <> S h -> length kxr <> 1%nat ->
  exists pt,
    ParticleTrapper_init solver kxr kx = Some pt /\
    ParticleTrapper_call pt e delta = None.
Proof.
  intros Hh He Hd Hk Hk1.
  rewrite ParticleTrapper_init_eq. eexists. split; [reflexivity|].
  unfold ParticleTrapper_call. cbn [pt_kx pt_wis].
  destruct (gradient delta kx) as [gd|]; [|reflexivity]. cbn [bind].
  rewrite (broadcast_clash (fun c w => Cscal w c))
    by (rewrite ?(length_rfft_even e h Hh He), ?length_map; lia).
  reflexivity.
Qed.

Lemma ParticleTrapper_call_filter_mismatch_witness :
  exists pt,
    ParticleTrapper_init (fun _ _ k => (k, - k)) [0; 1] [0; 1; 2; -1] = Some pt /\
    ParticleTrapper_call pt [1; 2; 3; 4] [0; 0; 0; 0] = None.
Proof.
  apply (ParticleTrapper_call_filter_mismatch (fun _ _ k => (k, - k))
           [0; 1] [0; 1; 2; -1] _ _ 2);
    simpl; lia.
Defined.

(** X30: [gradient] raises when the array and the wavenumber array have
    different lengths and neither length is one. *)
Theorem gradient_shape_error (arr kx : list R) :
  length kx <> length arr -> length kx <> 1%nat -> length arr <> 1%nat ->
  gradient arr kx = None.
Proof.
  intros H H1 H2. unfold gradient.
  rewrite (broadcast_clash Cmul)
    by (rewrite ?length_map, ?length_fft, ?length_map; assumption).
  reflexivity.
Qed.

Lemma gradient_shape_error_witness : gradient [1; 2; 3] [0; 1] = None.
Proof. apply (gradient_shape_error [1; 2; 3] [0; 1]); simpl; lia. Defined.
